(** * markdownlint-rule-mermaid: the diagnostic pipeline of the [mermaid-syntax] rule

    A shallow embedding of the rule module (fragment extraction, the empty
    check, the translation of parser failures, the two validation modes and
    the lazily initialised parser) together with the part of the JavaScript
    string and RegExp library it calls.

    Conventions.
    - A JavaScript string is a list of code units, [list ascii]; the
      development covers the code units below 256.
    - A JavaScript number that holds a line number or an offset is a [Z].
    - [null] and [undefined] of an optional field are [None]. *)

From Stdlib Require Import ZArith Lia Ascii String List Bool Sorted.
From stdpp Require Import list strings.

Abbreviation str := (list ascii).
Coercion list_ascii_of_string : string >-> list.

Open Scope Z_scope.

(** ** JavaScript strings *)

Module JS.

Definition in_range (lo hi c : ascii) : bool :=
  ((lo <=? c) && (c <=? hi))%char.

Definition isDigit (c : ascii) : bool := in_range "0" "9" c.

Definition isAsciiLetter (c : ascii) : bool :=
  in_range "a" "z" c || in_range "A" "Z" c.

(** WordCharacters of the RegExp grammar: [A-Za-z0-9_]. *)
Definition isWordChar (c : ascii) : bool :=
  isAsciiLetter c || isDigit c || Ascii.eqb c "_".

(** LineTerminator: LF and CR (U+2028 and U+2029 are above 255). *)
Definition isLineTerminator (c : ascii) : bool :=
  Ascii.eqb c "010" || Ascii.eqb c "013".

(** WhiteSpace and LineTerminator, as [trim] and the class [\s] use them:
    TAB, LF, VT, FF, CR, SP and NBSP. *)
Definition isWhiteSpace (c : ascii) : bool :=
  existsb (Ascii.eqb c) ["009"; "010"; "011"; "012"; "013"; " "; "160"]%char.

Definition newline : ascii := "010"%char.

(** The simple case mappings of the code units below 256 that stay below
    256 (U+00B5 and U+00FF have their upper case above 255, U+00DF has a
    two-unit upper case: the three are their own image). *)
Definition toUpperUnit (c : ascii) : ascii :=
  let n := nat_of_ascii c in
  if in_range "a" "z" c then ascii_of_nat (n - 32)
  else if (224 <=? n)%nat && (n <=? 254)%nat && negb (n =? 247)%nat
       then ascii_of_nat (n - 32)
  else c.

Definition toLowerUnit (c : ascii) : ascii :=
  let n := nat_of_ascii c in
  if in_range "A" "Z" c then ascii_of_nat (n + 32)
  else if (192 <=? n)%nat && (n <=? 222)%nat && negb (n =? 215)%nat
       then ascii_of_nat (n + 32)
  else c.

(** [s.toLowerCase()] *)
Definition toLowerCase (s : str) : str := map toLowerUnit s.

Fixpoint trimStart (s : str) : str :=
  match s with
  | c :: s' => if isWhiteSpace c then trimStart s' else s
  | [] => []
  end.

Definition trimEnd (s : str) : str := rev (trimStart (rev s)).

(** [s.trim()] *)
Definition trim (s : str) : str := trimEnd (trimStart s).

(** [s.split(sep)] for a separator of one code unit; the result is never
    empty, [''.split(sep)] is [['']]. *)
Fixpoint split (sep : ascii) (s : str) : list str :=
  match s with
  | [] => [[]]
  | c :: s' =>
      if Ascii.eqb c sep then [] :: split sep s'
      else match split sep s' with
           | l :: ls => (c :: l) :: ls
           | [] => [[c]]
           end
  end.

Definition clamp (len i : Z) : Z := Z.max 0 (Z.min i len).

(** [s.substring(a, b)]: both indices are clamped to [0, s.length] and
    swapped when [a > b]. *)
Definition substring (s : str) (a b : Z) : str :=
  let len := Z.of_nat (length s) in
  let a' := clamp len a in
  let b' := clamp len b in
  let from := Z.min a' b' in
  let to := Z.max a' b' in
  take (Z.to_nat (to - from)) (drop (Z.to_nat from) s).

Fixpoint startsWith (s pat : str) : bool :=
  match pat, s with
  | [], _ => true
  | p :: pat', c :: s' => Ascii.eqb p c && startsWith s' pat'
  | _ :: _, [] => false
  end.

(** [s.includes(pat)] *)
Fixpoint includes (s pat : str) : bool :=
  startsWith s pat ||
  match s with
  | [] => false
  | _ :: s' => includes s' pat
  end.

Definition digitValue (c : ascii) : Z :=
  Z.of_nat (nat_of_ascii c) - 48.

(** [Number.parseInt(s, 10)] on a string of decimal digits, which is what
    the two call sites pass (a [\d+] capture). *)
Definition parseInt (s : str) : Z :=
  fold_left (fun acc c => 10 * acc + digitValue c) s 0.

(** [a === b] on strings. *)
Fixpoint eqb (a b : str) : bool :=
  match a, b with
  | [], [] => true
  | x :: a', y :: b' => Ascii.eqb x y && eqb a' b'
  | _, _ => false
  end.

(** A string is truthy when it is not empty. *)
Definition truthy (s : str) : bool :=
  match s with [] => false | _ :: _ => true end.

(** [o || d] for an optional string [o]. *)
Definition or_else (o : option str) (d : option str) : option str :=
  match o with
  | Some s => if truthy s then Some s else d
  | None => d
  end.

(** The number of line feeds in [s]: [(s.match(/\n/g) || []).length]. *)
Definition countNewlines (s : str) : Z :=
  Z.of_nat (length (filter (fun c => c = newline) s)).

End JS.

(** ** JavaScript regular expressions

    The backtracking matcher of the RegExp semantics, for the constructs the
    rule's patterns use: literal characters, classes, quantified classes
    (greedy and lazy), an optional group, capture groups, [^] and [\b], with
    the flags [i] and [g]. *)

Module RegExp.

Inductive cclass : Type :=
| CChar (c : ascii)              (* a literal character *)
| CDot                           (* .  *)
| CDigit                         (* \d *)
| CSpace                         (* \s *)
| CNonSpace                      (* \S *)
| CRange (lo hi : ascii)         (* lo-hi inside brackets *)
| CUnion (a b : cclass)          (* juxtaposition inside brackets *)
| CNot (a : cclass).             (* [^...] *)

Inductive regex : Type :=
| Empty
| Atom (c : cclass)
| Seq (r1 r2 : regex)
| Quant (greedy : bool) (min : nat) (max : option nat) (c : cclass)
| Opt (r : regex)                (* (?:r)? *)
| Group (r : regex)              (* (r) *)
| Bol                            (* ^ *)
| WordBoundary.                  (* \b *)

Record t : Type := { body : regex; ignoreCase : bool; global : bool }.

(** Pattern syntax. *)
Fixpoint Lit (s : str) : regex :=
  match s with
  | [] => Empty
  | c :: s' => Seq (Atom (CChar c)) (Lit s')
  end.

Definition Cat (rs : list regex) : regex := foldr Seq Empty rs.

Definition Star (c : cclass) : regex := Quant true 0 None c.       (* c*  *)
Definition Plus (c : cclass) : regex := Quant true 1 None c.       (* c+  *)
Definition StarLazy (c : cclass) : regex := Quant false 0 None c.  (* c*? *)
Definition PlusLazy (c : cclass) : regex := Quant false 1 None c.  (* c+? *)
Definition Times (n : nat) (c : cclass) : regex := Quant true n (Some n) c. (* c{n} *)

(** Canonicalize of the RegExp semantics (without the [u] flag): the upper
    case of the code unit, except that a unit above 127 is never mapped
    into ASCII. *)
Definition canonicalize (ic : bool) (c : ascii) : ascii :=
  if ic then JS.toUpperUnit c else c.

(** Does the class contain a member whose canonical form is that of [ch]? *)
Fixpoint cmatch (ic : bool) (cl : cclass) (ch : ascii) : bool :=
  match cl with
  | CChar c => Ascii.eqb (canonicalize ic c) (canonicalize ic ch)
  | CDot => negb (JS.isLineTerminator ch)
  | CDigit => JS.isDigit ch
  | CSpace => JS.isWhiteSpace ch
  | CNonSpace => negb (JS.isWhiteSpace ch)
  | CRange lo hi =>
      JS.in_range lo hi ch ||
      (ic && (JS.in_range lo hi (JS.toUpperUnit ch) || JS.in_range lo hi (JS.toLowerUnit ch)))
  | CUnion a b => cmatch ic a ch || cmatch ic b ch
  | CNot a => negb (cmatch ic a ch)
  end.

(** The matcher runs over a split input: [prev] is the consumed prefix,
    last character first, and [rest] is what remains. *)

Definition first_some {A} (x y : option A) : option A :=
  match x with Some _ => x | None => y end.

(** A quantified class followed by the continuation [k]. *)
Fixpoint quant {R} (ic greedy : bool) (c : cclass) (min : nat) (max : option nat)
    (k : str -> str -> option R) (prev rest : str) {struct rest} : option R :=
  let stop := match min with O => k prev rest | S _ => None end in
  let more :=
    match max, rest with
    | Some O, _ => None
    | _, ch :: rest' =>
        if cmatch ic c ch
        then quant ic greedy c (pred min) (pred <$> max) k (ch :: prev) rest'
        else None
    | _, [] => None
    end in
  if greedy then first_some more stop else first_some stop more.

(** The text consumed between two states of the matcher. *)
Definition consumed (prev prev' : str) : str :=
  rev (take (length prev' - length prev) prev').

Definition atWordChar (s : str) : bool :=
  match s with c :: _ => JS.isWordChar c | [] => false end.

Fixpoint rmatch {R} (ic : bool) (r : regex)
    (k : str -> str -> list str -> option R)
    (prev rest : str) (caps : list str) {struct r} : option R :=
  match r with
  | Empty => k prev rest caps
  | Atom c =>
      match rest with
      | ch :: rest' => if cmatch ic c ch then k (ch :: prev) rest' caps else None
      | [] => None
      end
  | Seq r1 r2 => rmatch ic r1 (fun p q cs => rmatch ic r2 k p q cs) prev rest caps
  | Quant g mn mx c => quant ic g c mn mx (fun p q => k p q caps) prev rest
  | Opt r1 => first_some (rmatch ic r1 k prev rest caps) (k prev rest caps)
  | Group r1 =>
      rmatch ic r1 (fun p q cs => k p q (cs ++ [consumed prev p])) prev rest caps
  | Bol => match prev with [] => k prev rest caps | _ :: _ => None end
  | WordBoundary =>
      if xorb (atWordChar prev) (atWordChar rest) then k prev rest caps else None
  end.

(** A match: [index] is [match.index], [matched] is [match[0]] and
    [captures] holds [match[1]], [match[2]], ... *)
Record Match : Type := { index : nat; matched : str; captures : list str }.

(** [capture m n] is [match[n]] for [n >= 1]. *)
Definition capture (m : Match) (n : nat) : str :=
  default [] (captures m !! (n - 1)%nat).

(** An attempt at the current position. *)
Definition matchAt (ic : bool) (r : regex) (prev rest : str) : option Match :=
  rmatch ic r
    (fun p _ cs => Some {| index := length prev; matched := consumed prev p; captures := cs |})
    prev rest [].

(** The leftmost match at or after the current position. *)
Fixpoint search (ic : bool) (r : regex) (prev rest : str) : option Match :=
  match matchAt ic r prev rest with
  | Some m => Some m
  | None =>
      match rest with
      | [] => None
      | c :: rest' => search ic r (c :: prev) rest'
      end
  end.

(** [re.exec(s)] with [lastIndex = 0], which is [s.match(re)] for a pattern
    without the [g] flag. *)
Definition exec (re : t) (s : str) : option Match :=
  search (ignoreCase re) (body re) [] s.

(** [re.test(s)], and the truth value of [s.match(re)]. *)
Definition test (re : t) (s : str) : bool :=
  match exec re s with Some _ => true | None => false end.

(** The successive matches of a [g] pattern: after a match the cursor
    [lastIndex] sits at its end (one further after an empty match), so the
    [skip] positions inside the last match are not tried. *)
Fixpoint scan (ic : bool) (r : regex) (skip : nat) (prev rest : str) : list Match :=
  match rest with
  | [] =>
      match skip with
      | O => match matchAt ic r prev [] with Some m => [m] | None => [] end
      | S _ => []
      end
  | c :: rest' =>
      match skip with
      | S n => scan ic r n (c :: prev) rest'
      | O =>
          match matchAt ic r prev rest with
          | Some m => m :: scan ic r (length (matched m) - 1) (c :: prev) rest'
          | None => scan ic r 0 (c :: prev) rest'
          end
      end
  end.

(** [s.matchAll(re)] for a [g] pattern whose [lastIndex] is 0. *)
Definition matchAll (re : t) (s : str) : list Match :=
  scan (ignoreCase re) (body re) 0 [] s.

(** The input with every listed match replaced by [by_]; [pos] is the end
    of the previous match. *)
Fixpoint splice (ms : list Match) (pos : nat) (s by_ : str) : str :=
  match ms with
  | [] => drop pos s
  | m :: ms' =>
      take (index m - pos) (drop pos s) ++ by_ ++
      splice ms' (index m + length (matched m)) s by_
  end.

(** [s.replace(re, by_)] for a replacement string without [$]: every match
    of a [g] pattern, the first match otherwise. *)
Definition replace (re : t) (by_ : str) (s : str) : str :=
  if global re then splice (matchAll re s) 0 s by_
  else match exec re s with
       | Some m => splice [m] 0 s by_
       | None => s
       end.

End RegExp.


(** ** The rule module *)

Import RegExp.

Definition dquote : ascii := "034"%char.

(** A template literal that puts [b] between double quotes. *)
Definition quoted (a b c : str) : str := a ++ dquote :: b ++ dquote :: c.

Module Token.
Record t : Type := { type : str; info : str; content : str; lineNumber : Z }.
End Token.

Module ParsedError.
(** [message] and [hint] are [None] when the property read that filled
    them gave [undefined]. *)
Record t : Type :=
  { line : option Z; message : option str; hint : option str; context : option str }.
End ParsedError.

Module ValidationError.
Record t : Type := { lineNumber : Z; detail : option str; context : option str }.
End ValidationError.

Module CodeBlock.
Record t : Type := { code : str; startLine : Z }.
End CodeBlock.

Module TokenHint.
Record t : Type := { message : str; hint : str }.
End TokenHint.

Inductive Result (T E : Type) : Type :=
| ok (value : T)
| err (error : E).
Arguments ok {T E} value.
Arguments err {T E} error.

Definition isErr {T E} (r : Result T E) : bool :=
  match r with err _ => true | ok _ => false end.

Definition entry (k m h : str) : str * TokenHint.t :=
  (k, {| TokenHint.message := m; TokenHint.hint := h |}).

(** The own properties of an object, in the order of the literal. *)
Fixpoint ownProperty {V} (o : list (str * V)) (key : str) : option V :=
  match o with
  | [] => None
  | (k, v) :: more => if JS.eqb k key then Some v else ownProperty more key
  end.

Definition TOKEN_HINTS : list (str * TokenHint.t) :=
    [ entry "SQS" "Unclosed square bracket"
        "Add closing ] to complete the node shape: A[text]";
      entry "PS" "Unclosed parenthesis"
        "Add closing ) to complete the node shape: A(text) or A((text))";
      entry "DIAMOND_START" "Unclosed curly brace or diamond"
        "Add closing } to complete the shape: A{text} or A{{text}}";
      entry "SUBROUTINESTART" "Unclosed subroutine shape"
        "Add closing ]] to complete the subroutine: A[[text]]";
      entry "STADIUMSTART" "Unclosed stadium shape"
        "Add closing ]) to complete the stadium: A([text])";
      entry "CYLINDERSTART" "Unclosed cylinder shape"
        "Add closing ]) to complete the cylinder: A[(text)]";
      entry "DOUBLECIRCLESTART" "Unclosed double circle shape"
        "Add closing ))) to complete the double circle: A(((text)))";
      entry "TRAPSTART" "Unclosed trapezoid shape"
        "Add closing /] to complete the trapezoid: A[/text/]";
      entry "INVTRAPSTART" "Unclosed inverse trapezoid shape"
        "Add closing \] to complete the inverse trapezoid: A[\text\]";
      entry "TAGEND" "Unclosed asymmetric shape"
        "Add closing ] to complete the asymmetric shape: A>text]";
      entry "1" "Unclosed block"
        (quoted "Add " "end"
           " to close subgraph, loop, alt, opt, par, critical, rect, or state block");
      entry "EOF_IN_STRUCT" "Unclosed namespace or struct block"
        "Add closing } to complete the namespace or class definition";
      entry "STRUCT_START" "Invalid struct declaration"
        "Check class syntax: class ClassName { ... }";
      entry "NODE_STRING" "Unexpected text"
        "Check for missing arrows (-->, ---) or invalid syntax";
      entry "NEWLINE" "Incomplete statement"
        "Add missing parts (e.g., colon for messages: Alice->>Bob: message)";
      entry "EOF" "Unexpected end of diagram"
        "Statement is incomplete - add missing node, message, or closing element";
      entry "LINK" "Missing link source"
        "Add source node before arrow: A --> B";
      entry "ACTOR" "Invalid participant reference"
        "Check participant name in note/over statement";
      entry "TXT" "Missing message text"
        "Add message after colon: Alice->>Bob: Hello";
      entry "IDENTIFYING" "Invalid ER relationship"
        "Use valid relationship: ||--o{, }o--||, etc.";
      entry "ONLY_ONE" "Invalid ER cardinality"
        "Check cardinality symbols: ||, |o, o|, }|, |{, etc.";
      entry "BLOCK_STOP" "Invalid ER attribute block"
        "Check attribute syntax: EntityName { type attrName }";
      entry "INVALID" "Invalid state transition"
        "Use --> for transitions: StateA --> StateB";
      entry "taskData" "Invalid task data"
        "Check task format: taskName :status, startDate, duration";
      entry "GENERICTYPE" "Invalid generic type"
        "Check generic syntax: class ClassName~Type~";
      entry "STYLE_SEPARATOR" "Invalid style syntax"
        "Check style definition syntax";
      entry "COMMIT_ID" "Invalid commit reference"
        (quoted "Use valid commit command: commit id: " "message" "");
      entry "COMMIT_TAG" "Invalid commit tag"
        (quoted "Use valid tag: commit tag: " "v1.0" "") ].

(** [TOKEN_HINTS] is an object literal, so a property read on it that finds
    no own property goes on to [Object.prototype]. These are the names found
    there; each holds a function, or ([__proto__]) the prototype object
    itself: a truthy value without a [message] or a [hint] property. *)
Definition OBJECT_PROTOTYPE : list str :=
  map list_ascii_of_string
    [ "constructor"; "hasOwnProperty"; "isPrototypeOf"; "propertyIsEnumerable";
      "toLocaleString"; "toString"; "valueOf"; "__proto__";
      "__defineGetter__"; "__defineSetter__"; "__lookupGetter__"; "__lookupSetter__" ]%string.

(** What [TOKEN_HINTS[token]] evaluates to, [undefined] being [None]. *)
Inductive Property : Type :=
| OwnHint (h : TokenHint.t)
| Inherited.

Definition getProperty (key : str) : option Property :=
  match ownProperty TOKEN_HINTS key with
  | Some h => Some (OwnHint h)
  | None => if existsb (JS.eqb key) OBJECT_PROTOTYPE then Some Inherited else None
  end.

(** [tokenInfo.message] and [tokenInfo.hint] *)
Definition Property_message (p : Property) : option str :=
  match p with OwnHint h => Some (TokenHint.message h) | Inherited => None end.

Definition Property_hint (p : Property) : option str :=
  match p with OwnHint h => Some (TokenHint.hint h) | Inherited => None end.

(** [TOKEN_HINTS[token] || null]: every property value is an object or a
    function, hence truthy. *)
Definition getTokenHint (token : str) : option Property := getProperty token.

(** [/^\.{3}/] *)
Definition LEADING_ELLIPSIS : RegExp.t :=
  {| body := Cat [Bol; Times 3 (CChar ".")]; ignoreCase := false; global := false |}.

Fixpoint extractContext_from (previous : option str) (errorLines : list str) : option str :=
  match errorLines with
  | [] => None
  | l :: more =>
      if JS.includes l "^" then
        match previous with
        | Some p => Some (JS.trim (replace LEADING_ELLIPSIS "" p))
        | None => None
        end
      else extractContext_from (Some l) more
  end.

Definition extractContext (errorLines : list str) : option str :=
  extractContext_from None errorLines.

(** [/Expecting .+?, got '([^']+)'/] *)
Definition EXPECTING_GOT : RegExp.t :=
  {| body := Cat [Lit "Expecting "; PlusLazy CDot; Lit ", got '";
                  Group (Plus (CNot (CChar "'"))); Lit "'"];
     ignoreCase := false; global := false |}.

(** [/^Parse error on line \d+:\s*/] *)
Definition PARSE_ERROR_HEADER : RegExp.t :=
  {| body := Cat [Bol; Lit "Parse error on line "; Plus CDigit; Lit ":"; Star CSpace];
     ignoreCase := false; global := false |}.

Definition firstOf (lines : list str) : str := default [] (head lines).

Definition handleParseError (errorMessage : str) (match_ : Match) : ParsedError.t :=
  let line := JS.parseInt (capture match_ 1) in
  let lines := JS.split JS.newline errorMessage in
  let expectingMatch := exec EXPECTING_GOT errorMessage in
  let '(message, hint) :=
    match expectingMatch with
    | Some em =>
        let got := capture em 1 in
        match getTokenHint got with
        | Some tokenInfo => (Property_message tokenInfo, Property_hint tokenInfo)
        | None =>
            (Some (quoted "Syntax error: unexpected " got ""),
             Some ("Check the syntax near this position" : str))
        end
    | None => (Some (replace PARSE_ERROR_HEADER "" (firstOf lines)), None)
    end in
  let context := extractContext lines in
  {| ParsedError.line := Some line; ParsedError.message := message;
     ParsedError.hint := hint; ParsedError.context := context |}.

Definition handleNoDiagramType (code : str) : ParsedError.t :=
  let firstLine := default [] (JS.trim <$> head (JS.split JS.newline code)) in
  let displayLine := if JS.truthy firstLine then firstLine else "(empty)" in
  {| ParsedError.line := Some 1;
     ParsedError.message := Some (quoted "Unknown diagram type: " displayLine "");
     ParsedError.hint := Some ("Valid types: flowchart, sequenceDiagram, classDiagram, stateDiagram, erDiagram, gantt, pie, mindmap, timeline, gitGraph" : str);
     ParsedError.context := JS.or_else (Some (JS.substring firstLine 0 40)) None |}.

(** The loop of [handleUnexpectedChar]: [pos] is the offset of the start of
    the current line, [line] its 1-based number. *)
Fixpoint walkLines (codeLines : list str) (offset pos line : Z) : Z :=
  match codeLines with
  | [] => line
  | codeLine :: more =>
      if pos + Z.of_nat (length codeLine) >=? offset then line
      else walkLines more offset (pos + Z.of_nat (length codeLine) + 1) (line + 1)
  end.

Definition handleUnexpectedChar (match_ : Match) (code : str) : ParsedError.t :=
  let char := capture match_ 1 in
  let offset := JS.parseInt (capture match_ 2) in
  let line := walkLines (JS.split JS.newline code) offset 0 1 in
  {| ParsedError.line := Some line;
     ParsedError.message := Some (quoted "Unexpected character " char "");
     ParsedError.hint := Some ("Check for typos, missing quotes, or invalid characters" : str);
     ParsedError.context := None |}.

(** [/Parse error on line (\d+):/i] *)
Definition PARSE_ERROR : RegExp.t :=
  {| body := Cat [Lit "Parse error on line "; Group (Plus CDigit); Lit ":"];
     ignoreCase := true; global := false |}.

(** [/Lexical error on line (\d+)/i] *)
Definition LEXICAL_ERROR : RegExp.t :=
  {| body := Cat [Lit "Lexical error on line "; Group (Plus CDigit)];
     ignoreCase := true; global := false |}.

(** [/unexpected character: ->(.)<- at offset: (\d+)/] *)
Definition UNEXPECTED_CHAR : RegExp.t :=
  {| body := Cat [Lit "unexpected character: ->"; Group (Atom CDot);
                  Lit "<- at offset: "; Group (Plus CDigit)];
     ignoreCase := false; global := false |}.

(** [/Expecting(?: token of type)? '?([^']+)'? but/i] *)
Definition EXPECTING_TOKEN : RegExp.t :=
  {| body := Cat [Lit "Expecting"; Opt (Lit " token of type"); Lit " ";
                  Opt (Atom (CChar "'")); Group (Plus (CNot (CChar "'")));
                  Opt (Atom (CChar "'")); Lit " but"];
     ignoreCase := true; global := false |}.

Definition lexicalError (m : Match) : ParsedError.t :=
  {| ParsedError.line := Some (JS.parseInt (capture m 1));
     ParsedError.message := Some ("Unrecognized text or keyword" : str);
     ParsedError.hint := Some ("Check for typos, invalid keywords, or unsupported syntax" : str);
     ParsedError.context := None |}.

Definition expectedToken (m : Match) : ParsedError.t :=
  {| ParsedError.line := Some 1;
     ParsedError.message := Some ("Expected " ++ capture m 1);
     ParsedError.hint := Some ("Check the diagram syntax and structure" : str);
     ParsedError.context := None |}.

Definition invalidSyntax : ParsedError.t :=
  {| ParsedError.line := Some 1;
     ParsedError.message := Some ("Invalid syntax" : str);
     ParsedError.hint := Some ("Check command syntax (e.g., branch name, checkout target)" : str);
     ParsedError.context := None |}.

Definition unknownFormat (errorMessage : str) : ParsedError.t :=
  {| ParsedError.line := None;
     ParsedError.message :=
       Some (JS.substring (firstOf (JS.split JS.newline errorMessage)) 0 150);
     ParsedError.hint := Some ("Check the diagram syntax for errors" : str);
     ParsedError.context := None |}.

Definition parseErrorMessage (errorMessage code : str) : ParsedError.t :=
  match exec PARSE_ERROR errorMessage with
  | Some parseErrorMatch => handleParseError errorMessage parseErrorMatch
  | None =>
  match exec LEXICAL_ERROR errorMessage with
  | Some lexicalMatch => lexicalError lexicalMatch
  | None =>
  if JS.includes errorMessage "No diagram type detected" then handleNoDiagramType code
  else
  match exec UNEXPECTED_CHAR errorMessage with
  | Some unexpectedCharMatch => handleUnexpectedChar unexpectedCharMatch code
  | None =>
  match exec EXPECTING_TOKEN errorMessage with
  | Some expectingTokenMatch => expectedToken expectingTokenMatch
  | None =>
  if JS.includes errorMessage "Expecting: one of these possible" then invalidSyntax
  else unknownFormat errorMessage
  end end end end.

(** [String(v)] of a string or [undefined]. *)
Definition toStr (v : option str) : str := default ("undefined" : str) v.

Definition formatErrorDetail (parsed : ParsedError.t) : option str :=
  match ParsedError.hint parsed with
  | Some h => if JS.truthy h then Some (toStr (ParsedError.message parsed) ++ ". " ++ h)
              else ParsedError.message parsed
  | None => ParsedError.message parsed
  end.

Definition toValidationError (parsed : ParsedError.t) (startLine : Z) (code : str)
    : ValidationError.t :=
  {| ValidationError.lineNumber :=
       match ParsedError.line parsed with
       | Some l => if l =? 0 then startLine else startLine + l - 1
       | None => startLine
       end;
     ValidationError.detail := formatErrorDetail parsed;
     ValidationError.context :=
       JS.or_else (ParsedError.context parsed)
         ((fun l => JS.substring l 0 40) <$> head (JS.split JS.newline code)) |}.

Definition checkNotEmpty (block : CodeBlock.t) : Result CodeBlock.t ValidationError.t :=
  let trimmed := JS.trim (CodeBlock.code block) in
  if negb (JS.truthy trimmed) then
    err {| ValidationError.lineNumber := CodeBlock.startLine block;
           ValidationError.detail :=
             Some ("Empty Mermaid diagram. Add a diagram type (e.g., flowchart, sequenceDiagram) and content" : str);
           ValidationError.context := None |}
  else ok {| CodeBlock.code := trimmed; CodeBlock.startLine := CodeBlock.startLine block |}.

(** The pattern of the basic check: at the start of the text, one captured
    group made of a letter [a-zA-Z] and then any number of characters of
    [a-zA-Z0-9_-]. *)
Definition DIAGRAM_TYPE : RegExp.t :=
  {| body := Cat [Bol;
                  Group (Cat [Atom (CUnion (CRange "a" "z") (CRange "A" "Z"));
                              Star (CUnion (CRange "a" "z") (CUnion (CRange "A" "Z")
                                      (CUnion (CRange "0" "9") (CUnion (CChar "_") (CChar "-")))))])];
     ignoreCase := false; global := false |}.

(** The loop of [validateBasicBlock]; the result is [foundType]. *)
Fixpoint findType (lines : list str) : bool :=
  match lines with
  | [] => false
  | line :: more =>
      let trimmedLine := JS.trim line in
      if negb (JS.truthy trimmedLine) || JS.startsWith trimmedLine "%%" then findType more
      else test DIAGRAM_TYPE trimmedLine
  end.

Definition validateBasicBlock (block : CodeBlock.t) : Result CodeBlock.t ValidationError.t :=
  match checkNotEmpty block with
  | err e => err e
  | ok trimmedBlock =>
      let lines := JS.split JS.newline (CodeBlock.code trimmedBlock) in
      if negb (findType lines) then
        err {| ValidationError.lineNumber := CodeBlock.startLine block;
               ValidationError.detail :=
                 Some ("Missing diagram type declaration. Start with a diagram type like: flowchart, sequenceDiagram, classDiagram" : str);
               ValidationError.context :=
                 (fun l => JS.substring (JS.trim l) 0 40) <$> head lines |}
      else ok trimmedBlock
  end.

(** ** Fragment extraction *)

Definition quoteChar : cclass := CUnion (CChar dquote) (CChar "'").

(** [/<TAG[^>]*\bclass\s*=\s*Q[^Q]*\bKEYWORD\b[^Q]*Q[^>]*>([\s\S]*?)<\/TAG>/gi],
    where Q stands for the class of the two quote characters. *)
Definition carrier (tag keyword : str) : RegExp.t :=
  {| body := Cat [Lit "<"; Lit tag; Star (CNot (CChar ">")); WordBoundary; Lit "class";
                  Star CSpace; Lit "="; Star CSpace; Atom quoteChar;
                  Star (CNot quoteChar); WordBoundary; Lit keyword; WordBoundary;
                  Star (CNot quoteChar); Atom quoteChar; Star (CNot (CChar ">")); Lit ">";
                  Group (StarLazy (CUnion CSpace CNonSpace)); Lit "</"; Lit tag; Lit ">"];
     ignoreCase := true; global := true |}.

Definition HTML_MERMAID_PATTERNS : list RegExp.t :=
  [ carrier "pre" "mermaid"; carrier "div" "mermaid"; carrier "code" "language-mermaid" ].

Definition literal_g (s : str) : RegExp.t :=
  {| body := Lit s; ignoreCase := false; global := true |}.

Definition decodeHtmlEntities (code : str) : str :=
  replace (literal_g "&nbsp;") " "
    (replace (literal_g "&#39;") "'"
      (replace (literal_g "&quot;") [dquote]
        (replace (literal_g "&amp;") "&"
          (replace (literal_g "&gt;") ">"
            (replace (literal_g "&lt;") "<" code))))).

(** The body of the inner loop of [extractMermaidFromHtml]: the block pushed
    for one match. *)
Definition blockOfMatch (html : str) (startLine : Z) (match_ : Match) : CodeBlock.t :=
  let code := capture match_ 1 in
  let decodedCode := decodeHtmlEntities code in
  let beforeMatch := JS.substring html 0 (Z.of_nat (index match_)) in
  let lineOffset := JS.countNewlines beforeMatch in
  {| CodeBlock.code := JS.trim decodedCode; CodeBlock.startLine := startLine + lineOffset |}.

Definition extractMermaidFromHtml (html : str) (startLine : Z) : list CodeBlock.t :=
  foldl (fun blocks pattern =>
           foldl (fun blocks match_ => blocks ++ [blockOfMatch html startLine match_])
                 blocks (matchAll pattern html))
        [] HTML_MERMAID_PATTERNS.

Definition extractMermaidBlocks (tokens : list Token.t) : list CodeBlock.t :=
  foldl (fun blocks token =>
           if JS.eqb (Token.type token) "fence" then
             let lang := JS.toLowerCase (JS.trim (Token.info token)) in
             if JS.eqb lang "mermaid" then
               blocks ++ [ {| CodeBlock.code := Token.content token;
                              CodeBlock.startLine := Token.lineNumber token |} ]
             else blocks
           else if JS.eqb (Token.type token) "html_block" then
             blocks ++ extractMermaidFromHtml (Token.content token) (Token.lineNumber token)
           else blocks)
        [] tokens.

(** ** The parser, its lazy initialisation and the rule

    The parser is outside the module: [mermaid.parse(code)] resolves, or
    rejects with a value of which the rule reads [error instanceof Error]
    and [error.message]. *)

Inductive Thrown : Type :=
| ErrorObject (message : str)
| OtherValue.

Inductive ParseOutcome : Type :=
| Resolves
| Rejects (error : Thrown).

(** What the run of a rule does to the outside, in the order it happens.
    [Parse i code] is the call [mermaid.parse(code)] made for the [i]-th
    block of the document. *)
Inductive Event : Type :=
| DomSetup                               (* new JSDOM, and globalThis.window, document, DOMParser set *)
| ImportMermaid                          (* import('mermaid') *)
| Initialize                             (* mermaid.initialize({...}) *)
| Parse (i : nat) (code : str)
| OnError (e : ValidationError.t).

(** The state shared by every call: the module variable [mermaidInstance]
    (set or [null]) and whether [globalThis.window] is defined. *)
Module Process.
Record t : Type := { mermaidInstance : bool; window : bool }.
Definition fresh : t := {| mermaidInstance := false; window := false |}.
End Process.

(** A block's validation is a promise. It is suspended inside [getMermaid]
    at [await import('mermaid')], or holds the instance and waits for its
    [then] callback to run, or is settled. *)
Inductive Task : Type :=
| InGetMermaid (block : CodeBlock.t)
| ReadyToParse (block : CodeBlock.t)
| Settled (result : Result CodeBlock.t ValidationError.t).

Record Machine : Type :=
  { process : Process.t; tasks : list Task; trace : list Event }.

(** [getMermaid()] up to its first suspension: the cached instance, or the
    DOM set up when there is no [window] and the import awaited. The result
    tells whether the call is suspended. *)
Definition getMermaid_enter (p : Process.t) : Process.t * list Event * bool :=
  if Process.mermaidInstance p then (p, [], false)
  else if Process.window p then (p, [ImportMermaid], true)
  else ({| Process.mermaidInstance := Process.mermaidInstance p; Process.window := true |},
        [DomSetup; ImportMermaid], true).

(** [getMermaid()] after the import: initialise and store the instance. *)
Definition getMermaid_resume (p : Process.t) : Process.t * list Event :=
  ({| Process.mermaidInstance := true; Process.window := Process.window p |}, [Initialize]).

(** [error instanceof Error ? error.message : 'Unknown parse error'] *)
Definition errorMessageOf (error : Thrown) : str :=
  match error with
  | ErrorObject message => message
  | OtherValue => "Unknown parse error"
  end.

(** The error callback of [parseMermaidSyntax]. *)
Definition parseFailure (block : CodeBlock.t) (error : Thrown) : ValidationError.t :=
  let errorMessage := errorMessageOf error in
  let parsed := parseErrorMessage errorMessage (CodeBlock.code block) in
  toValidationError parsed (CodeBlock.startLine block) (CodeBlock.code block).

(** [ResultAsync.combineWithAllErrors] of neverthrow, on the settled results
    in list order. *)
Definition combineWithAllErrors {T E} (results : list (Result T E)) : Result (list T) (list E) :=
  foldl (fun acc result =>
           match result, acc with
           | err e, err es => err (es ++ [e])
           | err e, ok _ => err [e]
           | ok v, ok vs => ok (vs ++ [v])
           | ok _, err es => err es
           end)
        (ok []) results.

Definition settled (t : Task) : option (Result CodeBlock.t ValidationError.t) :=
  match t with Settled r => Some r | _ => None end.

Section Rule.

Variable parse : str -> ParseOutcome.

Definition parseResult (block : CodeBlock.t) : Result CodeBlock.t ValidationError.t :=
  match parse (CodeBlock.code block) with
  | Resolves => ok block
  | Rejects error => err (parseFailure block error)
  end.

(** [validateMermaidBlock(block)] up to its first suspension. *)
Definition start (m : Machine) (block : CodeBlock.t) : Machine :=
  match checkNotEmpty block with
  | err e =>
      {| process := process m; tasks := tasks m ++ [Settled (err e)]; trace := trace m |}
  | ok trimmedBlock =>
      let '(p, events, suspended) := getMermaid_enter (process m) in
      {| process := p;
         tasks := tasks m ++ [if suspended then InGetMermaid trimmedBlock
                              else ReadyToParse trimmedBlock];
         trace := trace m ++ events |}
  end.

(** The event loop runs the next continuation of the [i]-th validation. *)
Definition step (m : Machine) (i : nat) : Machine :=
  match tasks m !! i with
  | Some (InGetMermaid block) =>
      let '(p, events) := getMermaid_resume (process m) in
      {| process := p; tasks := <[i := ReadyToParse block]> (tasks m);
         trace := trace m ++ events |}
  | Some (ReadyToParse block) =>
      {| process := process m;
         tasks := <[i := Settled (parseResult block)]> (tasks m);
         trace := trace m ++ [Parse i (CodeBlock.code block)] |}
  | _ => m
  end.

(** The rule resumes once every validation is settled, and then reports
    the collected errors; it stays suspended otherwise. *)
Definition join (onError : ValidationError.t -> Event) (m : Machine) : Machine :=
  match mapM settled (tasks m) with
  | Some results =>
      match combineWithAllErrors results with
      | err errors =>
          {| process := process m; tasks := tasks m;
             trace := trace m ++ map onError errors |}
      | ok _ => m
      end
  | None => m
  end.

(** The full mode of the rule: every validation is started, the event loop
    runs the continuations in the order [schedule], and the rule joins. *)
Definition runFull (p : Process.t) (schedule : list nat) (blocks : list CodeBlock.t) : Machine :=
  join OnError
    (foldl step (foldl start {| process := p; tasks := []; trace := [] |} blocks) schedule).

(** The basic mode of the rule. *)
Definition runBasic (blocks : list CodeBlock.t) : list Event :=
  foldl (fun events block =>
           match validateBasicBlock block with
           | err e => events ++ [OnError e]
           | ok _ => events
           end)
        [] blocks.

(** [mermaidSyntaxRule.function]; [useBasic] is [config.basic ?? false]. *)
Definition rule (useBasic : bool) (p : Process.t) (schedule : list nat)
    (tokens : list Token.t) : Machine :=
  let blocks := extractMermaidBlocks tokens in
  if useBasic then {| process := p; tasks := []; trace := runBasic blocks |}
  else runFull p schedule blocks.

End Rule.

(** The calls of the parser and the reports of a trace. *)
Definition parseCalls (events : list Event) : list (nat * str) :=
  omap (fun e => match e with Parse i c => Some (i, c) | _ => None end) events.

Definition reports (events : list Event) : list ValidationError.t :=
  omap (fun e => match e with OnError v => Some v | _ => None end) events.

Definition initializations (events : list Event) : nat :=
  length (omap (fun e => match e with Initialize => Some tt | _ => None end) events).

(** ** The structured-exception backend: the line of an offset *)

Definition calculateKatexErrorLine (code : str) (position startLine : Z) : Z :=
  let beforeError := JS.substring code 0 position in
  let lineOffset := JS.countNewlines beforeError in
  startLine + lineOffset.

(** ** Vocabulary of the properties *)

Section Outcomes.

Variable parse : str -> ParseOutcome.

(** What the promise of [validateMermaidBlock(block)] settles to. *)
Definition validate (block : CodeBlock.t) : Result CodeBlock.t ValidationError.t :=
  match checkNotEmpty block with
  | err e => err e
  | ok trimmedBlock => parseResult parse trimmedBlock
  end.

(** The task a block starts as in a process [p], and the next state of a
    task when the event loop runs it. *)
Definition initTask (p : Process.t) (block : CodeBlock.t) : Task :=
  match checkNotEmpty block with
  | err e => Settled (err e)
  | ok trimmedBlock =>
      if Process.mermaidInstance p then ReadyToParse trimmedBlock
      else InGetMermaid trimmedBlock
  end.

Definition advance (t : Task) : Task :=
  match t with
  | InGetMermaid block => ReadyToParse block
  | ReadyToParse block => Settled (parseResult parse block)
  | Settled r => Settled r
  end.

End Outcomes.

Definition occurrences (i : nat) (schedule : list nat) : nat :=
  length (filter (fun j => j = i) schedule).

(** A schedule in which each of the first [n] validations gets the two
    turns it needs, in any order. *)
Definition fair (n : nat) (schedule : list nat) : Prop :=
  forall i, (i < n)%nat -> (2 <= occurrences i schedule)%nat.

Definition errorsOf {T E} (results : list (Result T E)) : list E :=
  omap (fun r => match r with err e => Some e | ok _ => None end) results.

Definition valuesOf {T E} (results : list (Result T E)) : list T :=
  omap (fun r => match r with ok v => Some v | err _ => None end) results.

(** The number of validations suspended inside [getMermaid]. *)
Definition suspended (ts : list Task) : nat :=
  length (omap (fun t => match t with InGetMermaid _ => Some tt | _ => None end) ts).

(** The error of an empty block and the error of the basic check. *)
Definition emptyContentError (startLine : Z) : ValidationError.t :=
  {| ValidationError.lineNumber := startLine;
     ValidationError.detail :=
       Some ("Empty Mermaid diagram. Add a diagram type (e.g., flowchart, sequenceDiagram) and content" : str);
     ValidationError.context := None |}.

Definition missingTypeError (startLine : Z) (trimmedCode : str) : ValidationError.t :=
  {| ValidationError.lineNumber := startLine;
     ValidationError.detail :=
       Some ("Missing diagram type declaration. Start with a diagram type like: flowchart, sequenceDiagram, classDiagram" : str);
     ValidationError.context :=
       (fun l => JS.substring (JS.trim l) 0 40) <$> head (JS.split JS.newline trimmedCode) |}.

(** The text before the first [sep]: the first line, for [sep] a line feed. *)
Fixpoint upTo (sep : ascii) (s : str) : str :=
  match s with
  | [] => []
  | c :: s' => if Ascii.eqb c sep then [] else c :: upTo sep s'
  end.

(** The basic check in the words of its description: the first line that is
    not blank and does not start with the comment marker, lines being taken
    without their surrounding white space, begins with a letter followed by
    letters, digits, underscores or hyphens. *)
Definition isTypeChar (c : ascii) : bool :=
  JS.isAsciiLetter c || JS.isDigit c || Ascii.eqb c "_" || Ascii.eqb c "-".

Definition beginsWithIdentifier (l : str) : Prop :=
  exists c w tail, l = c :: w ++ tail /\ JS.isAsciiLetter c = true /\
                   Forall (fun x => isTypeChar x = true) w.

Definition significant (l : str) : bool :=
  JS.truthy l && negb (JS.startsWith l "%%").

Definition firstSignificantLine (code : str) : option str :=
  head (filter (fun l => significant l = true) (map JS.trim (JS.split JS.newline code))).

Definition declaresDiagramType (code : str) : Prop :=
  exists l, firstSignificantLine code = Some l /\ beginsWithIdentifier l.

(** The translator in the words of its description: an ordered list of
    patterns with their handlers, the first pattern that matches decides,
    and a default when none does. *)
Module Pattern.
Record t : Type :=
  { applies : str -> option Match;
    handle : str -> str -> Match -> ParsedError.t }.
End Pattern.

Definition containing (phrase : str) (errorMessage : str) : option Match :=
  if JS.includes errorMessage phrase
  then Some {| index := 0; matched := phrase; captures := [] |}
  else None.

Definition parseErrorPattern : Pattern.t :=
  {| Pattern.applies := exec PARSE_ERROR;
     Pattern.handle := fun errorMessage _ m => handleParseError errorMessage m |}.

Definition lexicalErrorPattern : Pattern.t :=
  {| Pattern.applies := exec LEXICAL_ERROR;
     Pattern.handle := fun _ _ m => lexicalError m |}.

Definition noDiagramTypePattern : Pattern.t :=
  {| Pattern.applies := containing "No diagram type detected";
     Pattern.handle := fun _ code _ => handleNoDiagramType code |}.

Definition unexpectedCharPattern : Pattern.t :=
  {| Pattern.applies := exec UNEXPECTED_CHAR;
     Pattern.handle := fun _ code m => handleUnexpectedChar m code |}.

Definition expectingTokenPattern : Pattern.t :=
  {| Pattern.applies := exec EXPECTING_TOKEN;
     Pattern.handle := fun _ _ m => expectedToken m |}.

Definition alternativesPattern : Pattern.t :=
  {| Pattern.applies := containing "Expecting: one of these possible";
     Pattern.handle := fun _ _ _ => invalidSyntax |}.

Definition CASCADE : list Pattern.t :=
  [ parseErrorPattern; lexicalErrorPattern; noDiagramTypePattern;
    unexpectedCharPattern; expectingTokenPattern; alternativesPattern ].

Fixpoint firstMatch (patterns : list Pattern.t) (errorMessage code : str)
    : option ParsedError.t :=
  match patterns with
  | [] => None
  | p :: more =>
      match Pattern.applies p errorMessage with
      | Some m => Some (Pattern.handle p errorMessage code m)
      | None => firstMatch more errorMessage code
      end
  end.

(** The fragments of one token, and of one tag shape inside an HTML token. *)
Definition blocksOfPattern (html : str) (startLine : Z) (pattern : RegExp.t)
    : list CodeBlock.t :=
  map (blockOfMatch html startLine) (matchAll pattern html).

Definition blocksOfToken (token : Token.t) : list CodeBlock.t :=
  if JS.eqb (Token.type token) "fence" then
    if JS.eqb (JS.toLowerCase (JS.trim (Token.info token))) "mermaid"
    then [ {| CodeBlock.code := Token.content token;
              CodeBlock.startLine := Token.lineNumber token |} ]
    else []
  else if JS.eqb (Token.type token) "html_block" then
    extractMermaidFromHtml (Token.content token) (Token.lineNumber token)
  else [].

(** The first character is a letter. *)
Definition startsWithLetter (l : str) : bool :=
  match l with c :: _ => JS.isAsciiLetter c | [] => false end.

(** The diagnostic carries the message and the hint of the entry [h]. *)
Definition sameHint (parsed : ParsedError.t) (h : TokenHint.t) : bool :=
  match ParsedError.message parsed, ParsedError.hint parsed with
  | Some m, Some t => JS.eqb m (TokenHint.message h) && JS.eqb t (TokenHint.hint h)
  | _, _ => false
  end.

(** Matches at strictly increasing positions, and blocks at non-decreasing
    lines of the document. *)
Definition ascending (ms : list Match) : Prop :=
  StronglySorted (fun a b => (index a < index b)%nat) ms.

Definition inDocumentOrder (blocks : list CodeBlock.t) : Prop :=
  StronglySorted (fun a b => CodeBlock.startLine a <= CodeBlock.startLine b) blocks.

(** 1 for a validation suspended inside [getMermaid], 0 otherwise. *)
Definition isSuspended (t : Task) : nat :=
  match t with InGetMermaid _ => 1 | _ => 0 end.

(** ** Sample documents and parser messages *)

(** A block of white space only. *)
Definition whitespaceOnly : CodeBlock.t :=
  {| CodeBlock.code := "  
 "; CodeBlock.startLine := 2 |}.

(** A document of two fences, the first empty, the second with an unclosed
    bracket on its third line. *)
Definition twoFailing : list Token.t :=
  [ {| Token.type := "fence"; Token.info := "mermaid"; Token.content := "
"; Token.lineNumber := 2 |};
    {| Token.type := "fence"; Token.info := "mermaid"; Token.content := "flowchart LR
A --> B
C --> [D
"; Token.lineNumber := 6 |} ].

(** A parser that rejects every code with the same message. *)
Definition rejecting (message : str) (code : str) : ParseOutcome :=
  Rejects (ErrorObject message).

(** The message of the parser for the unclosed bracket. *)
Definition unclosedBracket : str := "Parse error on line 3:
...A --> B
C --> [D
-----------^
Expecting 'SQE', 'DOUBLECIRCLEEND', 'PE', got 'EOF'".

Definition unclosedBlock : CodeBlock.t :=
  {| CodeBlock.code := "flowchart LR
A --> B
C --> [D
"; CodeBlock.startLine := 2 |}.

(** A match of the unexpected-character pattern: the character and the
    digits of the offset. *)
Definition atOffset (c : str) (offset : str) : Match :=
  {| index := 16; matched := []; captures := [c; offset] |}.

(** A block whose first line after a comment starts with a hyphen. *)
Definition commentThenDash : CodeBlock.t :=
  {| CodeBlock.code := "
%% comment
  -x
"; CodeBlock.startLine := 3 |}.

(** A message that both the second and the sixth pattern match, and a
    message that none matches. *)
Definition lexicalThenAlternatives : str :=
  "Lexical error on line 2. Expecting: one of these possible Token sequences".

Definition unknownMessage : str := "Something went wrong
in the parser".

(** The message the parser gives for an unexpected token [token]. *)
Definition unexpectedToken (token : str) : str :=
  "Parse error on line 3:
...A --> B
C --> [D
-----------^
Expecting 'SQE', 'DOUBLECIRCLEEND', 'PE', got '" ++ token ++ "'".

Definition inheritedName : str := unexpectedToken "constructor".

(** A message whose line before the caret line is an ellipsis only. *)
Definition ellipsisOnly : str := "Parse error on line 2:
...
---^
Expecting 'NEWLINE', got 'EOF'".

Definition someBlock : CodeBlock.t :=
  {| CodeBlock.code := "flowchart LR
A --"; CodeBlock.startLine := 1 |}.

(** One HTML token with a [div] carrier on line 1 and a [pre] carrier on
    line 5. *)
Definition divThenPre : Token.t :=
  {| Token.type := "html_block"; Token.info := "";
     Token.content := quoted "<div class=" "mermaid" ">
flowchart LR
  A --> B
</div>
" ++ quoted "<pre class=" "mermaid" ">
sequenceDiagram
  Alice->>Bob: Hello
</pre>
";
     Token.lineNumber := 1 |}.

(** Two blocks that pass the empty check. *)
Definition twoDiagrams : list CodeBlock.t :=
  [ {| CodeBlock.code := "flowchart LR
  A --> B
"; CodeBlock.startLine := 2 |};
    {| CodeBlock.code := "sequenceDiagram
  Alice->>Bob: Hello
"; CodeBlock.startLine := 8 |} ].

(** ** The math rule: validation of a block with the KaTeX parser *)

Module KatexRuleConfig.
Record t : Type := { displayMode : option bool; strict : option bool }.
End KatexRuleConfig.

(** What [katexParser.__parse] throws: a [ParseError] with its message and,
    when it is a number, its [position]; another [Error]; or another value. *)
Inductive KatexThrown : Type :=
| KatexParseError (message : str) (position : option Z)
| KatexError (message : str)
| KatexOther.


Definition getKatexErrorHint (message : str) : str :=
  if JS.includes message "Undefined control sequence" then
    ". Check for typos in command names or use \text{} for regular text"
  else if JS.includes message "Expected '}'" then
    ". Make sure all braces {} are properly closed"
  else if JS.includes message "Expected group" then
    ". Add the required argument in braces: \command{argument}"
  else if JS.includes message "Unexpected end of input" then
    ". The expression is incomplete - check for missing closing braces or arguments"
  else "".

(** [/\n/g] *)
Definition LINE_FEED : RegExp.t :=
  {| body := Lit [JS.newline]; ignoreCase := false; global := true |}.

Definition extractKatexContext (code : str) (position : Z) : str :=
  let start := Z.max 0 (position - 15) in
  let end_ := Z.min (Z.of_nat (length code)) (position + 15) in
  replace LINE_FEED " " (JS.substring code start end_).

(** [/^KaTeX parse error:\s*/i] *)
Definition KATEX_PREFIX : RegExp.t :=
  {| body := Cat [Bol; Lit "KaTeX parse error:"; Star CSpace];
     ignoreCase := true; global := false |}.

Definition parseKatexError (error : KatexThrown) (block : CodeBlock.t) : ValidationError.t :=
  match error with
  | KatexParseError message position =>
      let cleanMessage := replace KATEX_PREFIX "" message in
      let hint := getKatexErrorHint cleanMessage in
      let errorLine :=
        match position with
        | Some p => calculateKatexErrorLine (CodeBlock.code block) p (CodeBlock.startLine block)
        | None => CodeBlock.startLine block
        end in
      let context :=
        match position with
        | Some p => Some (extractKatexContext (CodeBlock.code block) p)
        | None => None
        end in
      {| ValidationError.lineNumber := errorLine;
         ValidationError.detail := Some (cleanMessage ++ hint);
         ValidationError.context := context |}
  | KatexError message =>
      {| ValidationError.lineNumber := CodeBlock.startLine block;
         ValidationError.detail := Some message;
         ValidationError.context := Some (JS.substring (CodeBlock.code block) 0 40) |}
  | KatexOther =>
      {| ValidationError.lineNumber := CodeBlock.startLine block;
         ValidationError.detail := Some ("Unknown KaTeX parse error" : str);
         ValidationError.context := Some (JS.substring (CodeBlock.code block) 0 40) |}
  end.


Section Katex.

(** [katexParser.__parse(code, {displayMode, strict})]: [None] when it
    returns, the thrown value otherwise. *)
Variable katexParse : str -> bool -> bool -> option KatexThrown.




End Katex.



(** ** More vocabulary *)

(** The calls of the parser made for the [i]-th block. *)
Definition callsFor (i : nat) (events : list Event) : nat :=
  length (filter (fun '(j, _) => j = i) (parseCalls events)).

Definition domSetups (events : list Event) : nat :=
  length (omap (fun e => match e with DomSetup => Some tt | _ => None end) events).

Definition imports (events : list Event) : nat :=
  length (omap (fun e => match e with ImportMermaid => Some tt | _ => None end) events).

(** 1 for a validation whose call of the parser is still to come. *)
Definition isPending (t : Task) : nat :=
  match t with Settled _ => 0 | _ => 1 end.

Definition pendingAt (ts : list Task) (i : nat) : nat :=
  match ts !! i with Some t => isPending t | None => 0%nat end.

Definition isOk {T E} (r : Result T E) : bool :=
  match r with ok _ => true | err _ => false end.

(** No white space at either end. *)
Definition trimmed (s : str) : Prop := JS.trim s = s.

(** The block is not empty once trimmed. *)
Definition passesEmptyCheck (b : CodeBlock.t) : bool := isOk (checkNotEmpty b).

(** The text does not start with white space. *)
Definition noLeadingSpace (s : str) : Prop :=
  match s with [] => True | c :: _ => JS.isWhiteSpace c = false end.



(** The texts a pattern can match and the captures it can leave, read off
    the pattern: what the matcher returns is of this shape. *)
Fixpoint shape (ic : bool) (r : regex) (w : str) : Prop :=
  match r with
  | Empty | Bol | WordBoundary => w = []
  | Atom c => exists ch, w = [ch] /\ cmatch ic c ch = true
  | Seq r1 r2 => exists w1 w2, w = w1 ++ w2 /\ shape ic r1 w1 /\ shape ic r2 w2
  | Quant _ mn _ c => Forall (fun ch => cmatch ic c ch = true) w /\ (mn <= length w)%nat
  | Opt r1 => w = [] \/ shape ic r1 w
  | Group r1 => shape ic r1 w
  end.

Fixpoint groups (ic : bool) (r : regex) (cs : list str) : Prop :=
  match r with
  | Seq r1 r2 => exists c1 c2, cs = c1 ++ c2 /\ groups ic r1 c1 /\ groups ic r2 c2
  | Opt r1 => cs = [] \/ groups ic r1 cs
  | Group r1 => exists inner w, cs = inner ++ [w] /\ groups ic r1 inner /\ shape ic r1 w
  | _ => cs = []
  end.

(** * Properties *)

(** ** The event loop of the full mode *)

Section Loop.

Variable parse : str -> ParseOutcome.

Lemma start_spec m block :
  tasks (start m block) = tasks m ++ [initTask (process m) block] /\
  Process.mermaidInstance (process (start m block)) = Process.mermaidInstance (process m) /\
  reports (trace (start m block)) = reports (trace m) /\
  parseCalls (trace (start m block)) = parseCalls (trace m).
Proof.
  unfold start, initTask, getMermaid_enter.
  destruct (checkNotEmpty block) as [b|e]; simpl; [|done].
  destruct (Process.mermaidInstance (process m)) eqn:Hi; simpl.
  - rewrite app_nil_r. by rewrite Hi.
  - destruct (Process.window (process m)); simpl;
      unfold reports, parseCalls; rewrite !omap_app; simpl; by rewrite !app_nil_r.
Qed.

Lemma starts_spec blocks : forall m,
  let m' := foldl start m blocks in
  tasks m' = tasks m ++ map (initTask (process m)) blocks /\
  Process.mermaidInstance (process m') = Process.mermaidInstance (process m) /\
  reports (trace m') = reports (trace m) /\
  parseCalls (trace m') = parseCalls (trace m).
Proof.
  induction blocks as [|b blocks IH]; intros m; simpl.
  - by rewrite app_nil_r.
  - destruct (start_spec m b) as (Ht & Hi & Hr & Hp).
    destruct (IH (start m b)) as (Ht' & Hi' & Hr' & Hp').
    rewrite Ht', Hi', Hr', Hp', Ht, Hi, Hr, Hp. repeat split; try done.
    rewrite <- app_assoc. simpl. do 2 f_equal.
    apply map_ext_in. intros a _. unfold initTask. by rewrite Hi.
Qed.

Lemma step_tasks m i :
  tasks (step parse m i) = alter (advance parse) i (tasks m).
Proof.
  unfold step. destruct (tasks m !! i) as [t|] eqn:Hl.
  - assert (Ha : alter (advance parse) i (tasks m) = <[i := advance parse t]> (tasks m)).
    { apply list_eq. intros j. destruct (decide (i = j)) as [->|Hne].
      - rewrite list_lookup_alter_eq, Hl. simpl.
        rewrite list_lookup_insert_eq; [done|]. by eapply lookup_lt_Some.
      - by rewrite list_lookup_alter_ne, list_lookup_insert_ne. }
    rewrite Ha. destruct t; simpl; try done.
    symmetry. by apply list_insert_id.
  - symmetry. apply list_eq. intros j. destruct (decide (i = j)) as [->|Hne].
    + by rewrite list_lookup_alter_eq, Hl.
    + by rewrite list_lookup_alter_ne.
Qed.

Lemma step_reports m i : reports (trace (step parse m i)) = reports (trace m).
Proof.
  unfold step. destruct (tasks m !! i) as [[b|b|r]|]; simpl; try done;
    unfold reports; rewrite omap_app; simpl; by rewrite app_nil_r.
Qed.

Lemma steps_reports schedule : forall m,
  reports (trace (foldl (step parse) m schedule)) = reports (trace m).
Proof.
  induction schedule as [|i schedule IH]; intros m; simpl; [done|].
  by rewrite IH, step_reports.
Qed.

Lemma steps_tasks schedule : forall m j,
  tasks (foldl (step parse) m schedule) !! j =
  Nat.iter (occurrences j schedule) (advance parse) <$> tasks m !! j.
Proof.
  induction schedule as [|i schedule IH]; intros m j; simpl.
  - by destruct (tasks m !! j).
  - rewrite IH, step_tasks. unfold occurrences. rewrite filter_cons.
    destruct (decide (i = j)) as [->|Hne].
    + rewrite list_lookup_alter_eq. destruct (tasks m !! j) as [t|]; [|done].
      cbn [fmap option_fmap option_map length]. f_equal. by rewrite Nat.iter_succ_r.
    + by rewrite list_lookup_alter_ne.
Qed.

Lemma advance_settled n r : Nat.iter n (advance parse) (Settled r) = Settled r.
Proof. induction n as [|n IH]; simpl; [done|]. by rewrite IH. Qed.

Lemma advance_twice p block n :
  (2 <= n)%nat -> Nat.iter n (advance parse) (initTask p block) = Settled (validate parse block).
Proof.
  intros Hn. destruct n as [|[|n]]; [lia..|].
  rewrite !Nat.iter_succ_r. unfold initTask, validate.
  destruct (checkNotEmpty block) as [b|e]; simpl.
  - destruct (Process.mermaidInstance p); simpl; apply advance_settled.
  - apply advance_settled.
Qed.

Lemma combine_from {T E} (results : list (Result T E)) : forall acc,
  foldl (fun acc result =>
           match result, acc with
           | err e, err es => err (es ++ [e])
           | err e, ok _ => err [e]
           | ok v, ok vs => ok (vs ++ [v])
           | ok _, err es => err es
           end) acc results =
  match acc with
  | ok vs => match errorsOf results with
             | [] => ok (vs ++ valuesOf results)
             | es => err es
             end
  | err es => err (es ++ errorsOf results)
  end.
Proof.
  induction results as [|r results IH]; intros acc; simpl.
  - destruct acc; by rewrite app_nil_r.
  - rewrite IH. destruct r as [v|e], acc as [vs|es]; simpl; try done.
    + by rewrite <- app_assoc.
    + by rewrite <- app_assoc.
Qed.

(** The errors come out in the order of the list, all of them. *)
Lemma combineWithAllErrors_spec {T E} (results : list (Result T E)) :
  combineWithAllErrors results =
  match errorsOf results with
  | [] => ok (valuesOf results)
  | es => err es
  end.
Proof. unfold combineWithAllErrors. by rewrite combine_from. Qed.

Lemma reports_onError errors : reports (map OnError errors) = errors.
Proof. induction errors as [|e errors IH]; simpl; [done|]. unfold reports in *. simpl. by rewrite IH. Qed.

Lemma parseCalls_onError errors : parseCalls (map OnError errors) = [].
Proof. induction errors as [|e errors IH]; simpl; done. Qed.

Lemma join_parseCalls m : parseCalls (trace (join OnError m)) = parseCalls (trace m).
Proof.
  unfold join. destruct (mapM settled (tasks m)) as [results|]; [|done].
  destruct (combineWithAllErrors results); simpl; [done|].
  unfold parseCalls. rewrite omap_app. fold (parseCalls (map OnError error)).
  by rewrite parseCalls_onError, app_nil_r.
Qed.

Lemma join_settled m results :
  tasks m = map Settled results ->
  reports (trace (join OnError m)) = reports (trace m) ++ errorsOf results.
Proof.
  intros Ht. unfold join.
  assert (Hm : mapM settled (tasks m) = Some results).
  { rewrite Ht. apply mapM_Some. clear Ht.
    induction results as [|r results IH]; simpl; constructor; done. }
  rewrite Hm, combineWithAllErrors_spec.
  destruct (errorsOf results) as [|e es] eqn:He; simpl.
  - by rewrite app_nil_r.
  - unfold reports. rewrite omap_app. f_equal.
    apply (reports_onError (e :: es)).
Qed.

(** After a fair schedule every promise holds the outcome of its block. *)
Lemma fair_settles p schedule blocks :
  fair (length blocks) schedule ->
  tasks (foldl (step parse) (foldl start {| process := p; tasks := []; trace := [] |} blocks) schedule)
  = map Settled (map (validate parse) blocks).
Proof.
  intros Hfair. apply list_eq. intros j.
  rewrite steps_tasks.
  destruct (starts_spec blocks {| process := p; tasks := []; trace := [] |}) as (Ht & _).
  rewrite Ht. simpl. rewrite !list_lookup_fmap.
  destruct (blocks !! j) as [b|] eqn:Hb; simpl; [|done].
  f_equal. apply advance_twice, Hfair. by eapply lookup_lt_Some.
Qed.

(** The reports of the full mode: the errors of the blocks, in the order of
    the blocks, whatever the order in which the validations ran. *)
Lemma runFull_reports p schedule blocks :
  fair (length blocks) schedule ->
  reports (trace (runFull parse p schedule blocks)) = errorsOf (map (validate parse) blocks).
Proof.
  intros Hfair. unfold runFull.
  rewrite (join_settled _ (map (validate parse) blocks)) by by apply fair_settles.
  rewrite steps_reports.
  destruct (starts_spec blocks {| process := p; tasks := []; trace := [] |}) as (_ & _ & Hr & _).
  by rewrite Hr.
Qed.

Lemma iter_ready p block n trimmedBlock :
  Nat.iter n (advance parse) (initTask p block) = ReadyToParse trimmedBlock ->
  checkNotEmpty block = ok trimmedBlock.
Proof.
  unfold initTask. destruct (checkNotEmpty block) as [b|e].
  - destruct (Process.mermaidInstance p).
    + destruct n as [|n]; [simpl; congruence|].
      rewrite Nat.iter_succ_r. simpl. by rewrite advance_settled.
    + destruct n as [|[|n]]; [done|simpl; congruence|].
      rewrite !Nat.iter_succ_r. simpl. by rewrite advance_settled.
  - by rewrite advance_settled.
Qed.

(** The parser is only ever called for a block that passed the empty
    check, and on its trimmed code. *)
Lemma runFull_parseCalls p schedule blocks i c :
  (i, c) ∈ parseCalls (trace (runFull parse p schedule blocks)) ->
  exists block trimmedBlock,
    blocks !! i = Some block /\ checkNotEmpty block = ok trimmedBlock /\
    c = CodeBlock.code trimmedBlock.
Proof.
  unfold runFull. rewrite join_parseCalls.
  set (m0 := foldl start {| process := p; tasks := []; trace := [] |} blocks).
  destruct (starts_spec blocks {| process := p; tasks := []; trace := [] |}) as (Ht & _ & _ & Hp).
  fold m0 in Ht, Hp. simpl in Ht, Hp.
  induction schedule as [|k schedule IH] using rev_ind.
  - simpl. rewrite Hp. by intros ?%elem_of_nil.
  - rewrite foldl_app. simpl. unfold step at 1.
    destruct (tasks (foldl (step parse) m0 schedule) !! k) as [[b|b|r]|] eqn:Hk; try done.
    + simpl. unfold parseCalls. rewrite omap_app. simpl. rewrite app_nil_r. apply IH.
    + simpl. unfold parseCalls. rewrite omap_app. simpl.
      intros [Hin|Hin%list_elem_of_singleton]%elem_of_app; [by apply IH|].
      injection Hin as -> ->.
      rewrite steps_tasks, Ht, list_lookup_fmap in Hk.
      destruct (blocks !! k) as [block|] eqn:Hb; simpl in Hk; [|done].
      injection Hk as Hk. apply iter_ready in Hk. by exists block, b.
Qed.

End Loop.

(** ** The empty check and the reports of the two modes *)

Lemma checkNotEmpty_empty block :
  JS.trim (CodeBlock.code block) = [] ->
  checkNotEmpty block = err (emptyContentError (CodeBlock.startLine block)).
Proof. intros H. unfold checkNotEmpty. by rewrite H. Qed.

Lemma checkNotEmpty_ok block trimmedBlock :
  checkNotEmpty block = ok trimmedBlock ->
  trimmedBlock = {| CodeBlock.code := JS.trim (CodeBlock.code block);
                    CodeBlock.startLine := CodeBlock.startLine block |} /\
  JS.trim (CodeBlock.code block) <> [].
Proof.
  unfold checkNotEmpty. destruct (JS.trim (CodeBlock.code block)) eqn:H; simpl; [done|].
  intros [= <-]. done.
Qed.

Lemma runBasic_from blocks : forall events,
  foldl (fun events block =>
           match validateBasicBlock block with
           | err e => events ++ [OnError e]
           | ok _ => events
           end) events blocks
  = events ++ map OnError (errorsOf (map validateBasicBlock blocks)).
Proof.
  induction blocks as [|b blocks IH]; intros events; simpl.
  - by rewrite app_nil_r.
  - rewrite IH. unfold errorsOf. simpl.
    destruct (validateBasicBlock b); simpl; [done|]. by rewrite <- app_assoc.
Qed.

(** The basic mode reports the error of every block that has one, in the
    order of the blocks, and does nothing else. *)
Lemma runBasic_spec blocks :
  runBasic blocks = map OnError (errorsOf (map validateBasicBlock blocks)).
Proof. unfold runBasic. by rewrite runBasic_from. Qed.

Lemma errorsOf_app {T E} (r1 r2 : list (Result T E)) :
  errorsOf (r1 ++ r2) = errorsOf r1 ++ errorsOf r2.
Proof. unfold errorsOf. apply omap_app. Qed.

Lemma step_settled parse m i :
  Forall (fun t => is_Some (settled t)) (tasks m) -> step parse m i = m.
Proof.
  intros Hall. unfold step. destruct (tasks m !! i) as [t|] eqn:Hl; [|done].
  eapply Forall_lookup_1 in Hall; [|done]. destruct t; simpl in Hall; try done;
    by destruct Hall.
Qed.

Lemma steps_settled parse schedule m :
  Forall (fun t => is_Some (settled t)) (tasks m) -> foldl (step parse) m schedule = m.
Proof.
  intros Hall. induction schedule as [|i schedule IH]; simpl; [done|].
  by rewrite step_settled.
Qed.

(** C2. A block whose trimmed code is empty: the basic check and the full
    validation both end in the empty-content error at the block's own
    [startLine]; alone in a document it is reported exactly once in either
    mode, whatever the schedule; inside any document it is reported at its
    place among the errors of the other blocks; and no call of the parser is
    ever made for it. *)
Theorem empty_content_law (parse : str -> ParseOutcome) (block : CodeBlock.t) :
  JS.trim (CodeBlock.code block) = [] ->
  let e := emptyContentError (CodeBlock.startLine block) in
  ValidationError.lineNumber e = CodeBlock.startLine block /\
  validateBasicBlock block = err e /\
  validate parse block = err e /\
  runBasic [block] = [OnError e] /\
  (forall p schedule, trace (runFull parse p schedule [block]) = [OnError e]) /\
  (forall before after,
     reports (runBasic (before ++ block :: after)) =
     reports (runBasic before) ++ e :: reports (runBasic after)) /\
  (forall p schedule before after,
     fair (length (before ++ block :: after)) schedule ->
     reports (trace (runFull parse p schedule (before ++ block :: after))) =
     errorsOf (map (validate parse) before) ++ e :: errorsOf (map (validate parse) after)) /\
  (forall p schedule blocks i c,
     blocks !! i = Some block ->
     (i, c) ∉ parseCalls (trace (runFull parse p schedule blocks))).
Proof.
  intros Hempty e.
  pose proof (checkNotEmpty_empty block Hempty) as Hc. fold e in Hc.
  assert (Hb : validateBasicBlock block = err e) by (unfold validateBasicBlock; by rewrite Hc).
  assert (Hv : validate parse block = err e) by (unfold validate; by rewrite Hc).
  split_and!; try done.
  - rewrite runBasic_spec. simpl. unfold errorsOf. simpl. by rewrite Hb.
  - intros p schedule. unfold runFull. simpl. unfold start at 1. rewrite Hc. simpl.
    rewrite steps_settled by (simpl; repeat constructor; by eexists).
    reflexivity.
  - intros before after. rewrite !runBasic_spec, !reports_onError.
    rewrite map_app, errorsOf_app. simpl. unfold errorsOf at 2. simpl. by rewrite Hb.
  - intros p schedule before after Hfair. rewrite runFull_reports by done.
    rewrite map_app, errorsOf_app. simpl. unfold errorsOf at 2. simpl. by rewrite Hv.
  - intros p schedule blocks i c Hi Hin.
    apply runFull_parseCalls in Hin as (b & tb & Hb' & Hok & _). congruence.
Qed.

Lemma empty_content_law_witness :
  validateBasicBlock whitespaceOnly = err (emptyContentError 2) /\
  forall p schedule,
    trace (runFull (fun _ => Resolves) p schedule [whitespaceOnly]) = [OnError (emptyContentError 2)].
Proof.
  pose proof (empty_content_law (fun _ => Resolves) whitespaceOnly eq_refl) as H.
  split; apply H.
Defined.

(** C3. Full mode over a document whose fragments all fail: [onError] is
    called once per fragment and in the order of extraction, for every fair
    schedule, that is whatever the order in which the validations run and
    settle. *)
Theorem order_preservation (parse : str -> ParseOutcome) (p : Process.t)
    (schedule : list nat) (tokens : list Token.t) :
  let blocks := extractMermaidBlocks tokens in
  Forall (fun b => isErr (validate parse b) = true) blocks ->
  fair (length blocks) schedule ->
  exists errors,
    reports (trace (rule parse false p schedule tokens)) = errors /\
    length errors = length blocks /\
    Forall2 (fun b e => validate parse b = err e) blocks errors.
Proof.
  intros blocks Hfail Hfair. exists (errorsOf (map (validate parse) blocks)).
  unfold rule. fold blocks. rewrite runFull_reports by done.
  split; [done|]. clear Hfair.
  induction Hfail as [|b bs Hb Hbs IH]; simpl; [by split; [|constructor]|].
  unfold errorsOf in *. simpl. destruct (validate parse b) as [v|e] eqn:Hv; [done|].
  simpl. destruct IH as [IH1 IH2]. split; [by rewrite IH1|by constructor].
Qed.

Lemma fair_2 : fair 2 [1; 0; 1; 0]%nat.
Proof. intros i Hi. destruct i as [|[|i]]; vm_compute; lia. Qed.

Lemma order_preservation_witness :
  exists errors,
    reports (trace (rule (rejecting unclosedBracket) false Process.fresh [1; 0; 1; 0]%nat twoFailing))
    = errors /\
    length errors = 2%nat /\
    Forall2 (fun b e => validate (rejecting unclosedBracket) b = err e)
            (extractMermaidBlocks twoFailing) errors.
Proof.
  apply (order_preservation (rejecting unclosedBracket) Process.fresh [1; 0; 1; 0]%nat twoFailing).
  - repeat constructor.
  - exact fair_2.
Defined.

(** C1. The line-offset law. A block that passes the empty check and whose
    parse is rejected yields an error that is reported in every document
    containing the block; when the translator resolves the line [L >= 1] of
    the failure the reported line is [startLine + L - 1], and when it
    resolves none the reported line is [startLine]. *)
Theorem line_offset_law (parse : str -> ParseOutcome)
    (block trimmedBlock : CodeBlock.t) (error : Thrown) :
  checkNotEmpty block = ok trimmedBlock ->
  parse (CodeBlock.code trimmedBlock) = Rejects error ->
  let S := CodeBlock.startLine block in
  let parsed := parseErrorMessage (errorMessageOf error) (CodeBlock.code trimmedBlock) in
  exists e,
    validate parse block = err e /\
    (forall p schedule blocks,
       block ∈ blocks -> fair (length blocks) schedule ->
       e ∈ reports (trace (runFull parse p schedule blocks))) /\
    (forall L, ParsedError.line parsed = Some L -> 1 <= L ->
               ValidationError.lineNumber e = S + L - 1) /\
    (ParsedError.line parsed = None -> ValidationError.lineNumber e = S).
Proof.
  intros Hok Hrej S parsed.
  exists (parseFailure trimmedBlock error).
  assert (Hv : validate parse block = err (parseFailure trimmedBlock error)).
  { unfold validate, parseResult. by rewrite Hok, Hrej. }
  assert (HS : CodeBlock.startLine trimmedBlock = S).
  { apply checkNotEmpty_ok in Hok as [-> _]. done. }
  split_and!; [done|..].
  - intros p schedule blocks Hin Hfair. rewrite runFull_reports by done.
    unfold errorsOf. apply list_elem_of_omap. exists (validate parse block).
    split; [by apply list_elem_of_fmap_2|]. by rewrite Hv.
  - intros L HL Hpos. unfold parseFailure, toValidationError. simpl.
    fold parsed. rewrite HL, HS. destruct (Z.eqb_spec L 0); [lia|done].
  - intros HL. unfold parseFailure, toValidationError. simpl.
    fold parsed. by rewrite HL, HS.
Qed.

Lemma line_offset_law_witness :
  exists e,
    validate (rejecting unclosedBracket) unclosedBlock = err e /\
    ValidationError.lineNumber e = 4.
Proof.
  destruct (line_offset_law (rejecting unclosedBracket) unclosedBlock
              {| CodeBlock.code := JS.trim (CodeBlock.code unclosedBlock); CodeBlock.startLine := 2 |}
              (ErrorObject unclosedBracket) eq_refl eq_refl) as (e & Hv & _ & HL & _).
  exists e. split; [exact Hv|]. apply (HL 3); [reflexivity | lia].
Defined.

(** ** Lines and offsets *)

Lemma split_head sep s : exists l ls, JS.split sep s = l :: ls.
Proof.
  destruct s as [|c s]; simpl; [by eexists _, _|].
  destruct (Ascii.eqb c sep); [by eexists _, _|].
  destruct (JS.split sep s); by eexists _, _.
Qed.

Lemma substring_prefix s n :
  0 <= n <= Z.of_nat (length s) -> JS.substring s 0 n = take (Z.to_nat n) s.
Proof.
  intros Hn. unfold JS.substring, JS.clamp.
  replace (Z.max 0 (Z.min 0 (Z.of_nat (length s)))) with 0 by lia.
  replace (Z.max 0 (Z.min n (Z.of_nat (length s)))) with n by lia.
  replace (Z.min 0 n) with 0 by lia. replace (Z.max 0 n) with n by lia.
  simpl. by rewrite Z.sub_0_r.
Qed.

Lemma countNewlines_cons c s :
  JS.countNewlines (c :: s) =
  (if Ascii.eqb c JS.newline then 1 else 0) + JS.countNewlines s.
Proof.
  unfold JS.countNewlines. rewrite filter_cons.
  destruct (Ascii.eqb_spec c JS.newline) as [->|Hne].
  - rewrite decide_True by done. simpl length. lia.
  - rewrite decide_False by done. lia.
Qed.

Lemma walkLines_reached l ls offset pos line :
  offset <= pos -> walkLines (l :: ls) offset pos line = line.
Proof.
  intros H. simpl. destruct (Z.geb_spec (pos + Z.of_nat (length l)) offset); [done|lia].
Qed.

(** The walk over the lines, read one character at a time. *)
Lemma walkLines_char c s offset pos line :
  walkLines (JS.split JS.newline (c :: s)) offset pos line =
  if Ascii.eqb c JS.newline
  then (if pos >=? offset then line
        else walkLines (JS.split JS.newline s) offset (pos + 1) (line + 1))
  else walkLines (JS.split JS.newline s) offset (pos + 1) line.
Proof.
  simpl JS.split. destruct (Ascii.eqb c JS.newline).
  - simpl. by rewrite Z.add_0_r.
  - destruct (split_head JS.newline s) as (l & ls & ->). simpl.
    replace (pos + Z.of_nat (S (length l))) with (pos + 1 + Z.of_nat (length l)) by lia.
    by destruct (pos + 1 + Z.of_nat (length l) >=? offset).
Qed.

Lemma walkLines_counts offset s : forall pos line,
  pos <= offset <= pos + Z.of_nat (length s) ->
  walkLines (JS.split JS.newline s) offset pos line =
  line + JS.countNewlines (take (Z.to_nat (offset - pos)) s).
Proof.
  induction s as [|c s IH]; intros pos line Hr.
  - rewrite take_nil. unfold JS.countNewlines. simpl in *.
    destruct (Z.geb_spec (pos + Z.of_nat 0) offset); lia.
  - rewrite walkLines_char. simpl length in Hr.
    destruct (Z.eq_dec offset pos) as [->|Hne].
    + rewrite Z.sub_diag. simpl take. unfold JS.countNewlines at 1. simpl.
      destruct (Ascii.eqb c JS.newline).
      * destruct (Z.geb_spec pos pos); [lia|lia].
      * destruct (split_head JS.newline s) as (l & ls & ->).
        rewrite walkLines_reached by lia. lia.
    + replace (Z.to_nat (offset - pos)) with (S (Z.to_nat (offset - (pos + 1)))) by lia.
      simpl take. rewrite countNewlines_cons.
      destruct (Ascii.eqb c JS.newline).
      * destruct (Z.geb_spec pos offset); [lia|]. rewrite IH by lia. lia.
      * rewrite IH by lia. lia.
Qed.

(** C9. Inside the code, the line that [handleUnexpectedChar] reaches by
    adding up line lengths is one more than the number of line feeds before
    the offset, which is what [calculateKatexErrorLine] computes for a block
    starting at line 1. *)
Theorem offset_line_agreement (match_ : Match) (code : str) :
  let offset := JS.parseInt (capture match_ 2) in
  0 <= offset <= Z.of_nat (length code) ->
  ParsedError.line (handleUnexpectedChar match_ code) =
    Some (1 + JS.countNewlines (JS.substring code 0 offset)) /\
  ParsedError.line (handleUnexpectedChar match_ code) =
    Some (calculateKatexErrorLine code offset 1).
Proof.
  intros offset Hr. unfold calculateKatexErrorLine.
  split; unfold handleUnexpectedChar; simpl; fold offset; f_equal;
    rewrite walkLines_counts by lia; rewrite substring_prefix by lia;
    by rewrite Z.sub_0_r.
Qed.

Lemma offset_line_agreement_witness :
  ParsedError.line (handleUnexpectedChar (atOffset "$" "12") "pie
 a
 b cde $") = Some (calculateKatexErrorLine "pie
 a
 b cde $" 12 1).
Proof.
  apply (offset_line_agreement (atOffset "$" "12") "pie
 a
 b cde $"). vm_compute. split; discriminate.
Defined.

(** ** The basic check *)

Lemma quant_star_total {R} ic c (k : str -> str -> option R) rest : forall prev,
  (forall p q, is_Some (k p q)) ->
  is_Some (quant ic true c 0 None k prev rest).
Proof.
  induction rest as [|ch rest IH]; intros prev Hk; simpl.
  - apply Hk.
  - destruct (cmatch ic c ch); simpl; [|apply Hk].
    destruct (IH (ch :: prev) Hk) as [x ->]. by eexists.
Qed.

Lemma search_anchored ic r rest : forall prev,
  prev <> [] -> search ic (Seq Bol r) prev rest = None.
Proof.
  induction rest as [|c rest IH]; intros prev Hp.
  - simpl. unfold matchAt. simpl. by destruct prev.
  - simpl. unfold matchAt. simpl. destruct prev; [done|]. by apply IH.
Qed.

Lemma letter_class c :
  cmatch false (CUnion (CRange "a" "z") (CRange "A" "Z")) c = JS.isAsciiLetter c.
Proof. simpl. by rewrite !orb_false_r. Qed.

(** The pattern of the basic check succeeds exactly on a text whose first
    character is a letter. *)
Lemma test_DIAGRAM_TYPE l : test DIAGRAM_TYPE l = startsWithLetter l.
Proof.
  unfold test, exec. simpl ignoreCase.
  change (body DIAGRAM_TYPE) with
    (Seq Bol (Seq (Group (Seq (Atom (CUnion (CRange "a" "z") (CRange "A" "Z")))
       (Seq (Star (CUnion (CRange "a" "z") (CUnion (CRange "A" "Z")
              (CUnion (CRange "0" "9") (CUnion (CChar "_") (CChar "-")))))) Empty))) Empty)).
  destruct l as [|c l].
  - reflexivity.
  - cbn [search startsWithLetter]. unfold matchAt at 1, Star. cbn [rmatch].
    rewrite (letter_class c). destruct (JS.isAsciiLetter c).
    + match goal with
      | |- context [quant ?ic true ?cl 0 None ?k ?p ?q] =>
          destruct (quant_star_total ic cl k q p) as [m Hm]; [by eexists|by rewrite Hm]
      end.
    + by rewrite search_anchored.
Qed.

Lemma beginsWithIdentifier_letter l :
  beginsWithIdentifier l <-> startsWithLetter l = true.
Proof.
  split.
  - by intros (c & w & tail & -> & Hc & _).
  - destruct l as [|c l]; simpl; [done|]. intros Hc.
    exists c, [], l. split_and!; [done|done|constructor].
Qed.

Lemma findType_spec lines :
  findType lines =
  match head (filter (fun l => significant l = true) (map JS.trim lines)) with
  | Some l => test DIAGRAM_TYPE l
  | None => false
  end.
Proof.
  induction lines as [|line lines IH]; [done|].
  cbn [findType map]. rewrite filter_cons.
  assert (Hc : negb (JS.truthy (JS.trim line)) || JS.startsWith (JS.trim line) "%%"
               = negb (significant (JS.trim line))).
  { unfold significant. by destruct (JS.truthy _), (JS.startsWith _ _). }
  rewrite Hc. destruct (decide (significant (JS.trim line) = true)) as [Hs|Hs].
  - by rewrite Hs.
  - apply not_true_is_false in Hs. rewrite Hs. apply IH.
Qed.

Lemma findType_declares code :
  findType (JS.split JS.newline code) = true <-> declaresDiagramType code.
Proof.
  rewrite findType_spec. unfold declaresDiagramType, firstSignificantLine.
  destruct (head _) as [l|].
  - rewrite test_DIAGRAM_TYPE, <- beginsWithIdentifier_letter. split.
    + intros H. by exists l.
    + by intros (l' & [= <-] & H).
  - split; [done|]. by intros (l' & [=] & _).
Qed.

Lemma parseCalls_runBasic blocks : parseCalls (runBasic blocks) = [].
Proof. rewrite runBasic_spec. apply parseCalls_onError. Qed.

(** C6. The basic mode. No call of the parser is made and the trace holds
    reports only; the error of every block that has one is reported, in the
    order of the blocks, so an error does not stop the blocks after it; and
    a block that passes the empty check gets the missing-type error, at its
    own [startLine], exactly when its code does not declare a diagram type,
    and is accepted otherwise. To declare a diagram type is to have a first
    line, among those that are neither blank nor start with the comment
    marker once trimmed, that begins with a letter followed by letters,
    digits, underscores or hyphens. *)
Theorem basic_mode (parse : str -> ParseOutcome) (p : Process.t)
    (schedule : list nat) (tokens : list Token.t) :
  let m := rule parse true p schedule tokens in
  parseCalls (trace m) = [] /\
  trace m = map OnError (errorsOf (map validateBasicBlock (extractMermaidBlocks tokens))) /\
  forall block trimmedBlock,
    checkNotEmpty block = ok trimmedBlock ->
    let e := missingTypeError (CodeBlock.startLine block) (CodeBlock.code trimmedBlock) in
    ValidationError.lineNumber e = CodeBlock.startLine block /\
    (validateBasicBlock block = err e <-> ~ declaresDiagramType (CodeBlock.code trimmedBlock)) /\
    (validateBasicBlock block = ok trimmedBlock <-> declaresDiagramType (CodeBlock.code trimmedBlock)).
Proof.
  intros m. unfold m, rule. simpl. split_and!.
  - apply parseCalls_runBasic.
  - apply runBasic_spec.
  - intros block trimmedBlock Hok. split; [done|].
    unfold validateBasicBlock. rewrite Hok.
    rewrite <- findType_declares.
    destruct (findType (JS.split JS.newline (CodeBlock.code trimmedBlock))); simpl.
    + split; split; done.
    + split; split; done.
Qed.

Lemma basic_mode_witness :
  validateBasicBlock commentThenDash = err (missingTypeError 3 "%% comment
  -x").
Proof.
  destruct (basic_mode (fun _ => Resolves) Process.fresh [] []) as (_ & _ & H).
  destruct (H commentThenDash
              {| CodeBlock.code := JS.trim (CodeBlock.code commentThenDash); CodeBlock.startLine := 3 |}
              eq_refl) as (_ & Hmissing & _).
  apply Hmissing. intros (l & Hl & Hid).
  apply beginsWithIdentifier_letter in Hid.
  vm_compute in Hl. injection Hl as <-. discriminate Hid.
Defined.

(** ** The translator *)

Lemma firstMatch_first before r after errorMessage code m :
  Forall (fun r' => Pattern.applies r' errorMessage = None) before ->
  Pattern.applies r errorMessage = Some m ->
  firstMatch (before ++ r :: after) errorMessage code
  = Some (Pattern.handle r errorMessage code m).
Proof.
  intros Hbefore Hr. induction Hbefore as [|r' before Hr' _ IH]; simpl.
  - by rewrite Hr.
  - by rewrite Hr'.
Qed.

Lemma firstMatch_none patterns errorMessage code :
  Forall (fun r => Pattern.applies r errorMessage = None) patterns ->
  firstMatch patterns errorMessage code = None.
Proof. intros H. induction H as [|r rs Hr _ IH]; simpl; [done|]. by rewrite Hr. Qed.

(** The chain of tests of [parseErrorMessage] is the first-match cascade. *)
Lemma parseErrorMessage_cascade errorMessage code :
  parseErrorMessage errorMessage code =
  default (unknownFormat errorMessage) (firstMatch CASCADE errorMessage code).
Proof.
  unfold parseErrorMessage, CASCADE, firstMatch, parseErrorPattern, lexicalErrorPattern,
    noDiagramTypePattern, unexpectedCharPattern, expectingTokenPattern, alternativesPattern,
    containing.
  cbn [Pattern.applies Pattern.handle].
  destruct (exec PARSE_ERROR errorMessage); [done|].
  destruct (exec LEXICAL_ERROR errorMessage); [done|].
  destruct (JS.includes errorMessage "No diagram type detected"); [done|].
  destruct (exec UNEXPECTED_CHAR errorMessage); [done|].
  destruct (exec EXPECTING_TOKEN errorMessage); [done|].
  by destruct (JS.includes errorMessage "Expecting: one of these possible").
Qed.

Lemma split_first sep s : head (JS.split sep s) = Some (upTo sep s).
Proof.
  induction s as [|c s IH]; simpl; [done|].
  destruct (Ascii.eqb c sep); [done|].
  destruct (JS.split sep s); simpl in *; congruence.
Qed.

Lemma substring_take s n :
  0 <= n -> JS.substring s 0 n = take (Z.to_nat n) s.
Proof.
  intros Hn. destruct (Z.le_gt_cases n (Z.of_nat (length s))) as [Hle|Hgt].
  - by apply substring_prefix.
  - unfold JS.substring, JS.clamp.
    replace (Z.max 0 (Z.min 0 (Z.of_nat (length s)))) with 0 by lia.
    replace (Z.max 0 (Z.min n (Z.of_nat (length s)))) with (Z.of_nat (length s)) by lia.
    replace (Z.min 0 (Z.of_nat (length s))) with 0 by lia.
    replace (Z.max 0 (Z.of_nat (length s))) with (Z.of_nat (length s)) by lia.
    change (Z.to_nat 0) with 0%nat. rewrite drop_0, Z.sub_0_r, Nat2Z.id.
    rewrite (take_ge s (length s)) by lia. by rewrite take_ge by lia.
Qed.

(** C7. The translator is a first-match cascade over its six patterns in
    their fixed order: a pattern that matches when none before it does
    decides the diagnostic alone, whatever the later patterns would say; and
    a message that matches none of the six gets no line and, as message, its
    first line cut at 150 characters. *)
Theorem first_match_cascade (errorMessage code : str) :
  parseErrorMessage errorMessage code =
    default (unknownFormat errorMessage) (firstMatch CASCADE errorMessage code) /\
  (forall before r after m,
     CASCADE = before ++ r :: after ->
     Forall (fun r' => Pattern.applies r' errorMessage = None) before ->
     Pattern.applies r errorMessage = Some m ->
     parseErrorMessage errorMessage code = Pattern.handle r errorMessage code m) /\
  (Forall (fun r => Pattern.applies r errorMessage = None) CASCADE ->
   ParsedError.line (parseErrorMessage errorMessage code) = None /\
   ParsedError.message (parseErrorMessage errorMessage code) =
     Some (take 150 (upTo JS.newline errorMessage))).
Proof.
  split_and!.
  - apply parseErrorMessage_cascade.
  - intros before r after m Hsplit Hbefore Hr.
    rewrite parseErrorMessage_cascade, Hsplit.
    by rewrite (firstMatch_first before r after errorMessage code m).
  - intros Hnone. rewrite parseErrorMessage_cascade, firstMatch_none by done.
    simpl. split; [done|]. f_equal. unfold firstOf. rewrite split_first. simpl.
    by rewrite substring_take.
Qed.

Lemma first_match_cascade_witness :
  Pattern.applies alternativesPattern lexicalThenAlternatives <> None /\
  parseErrorMessage lexicalThenAlternatives "x" =
    {| ParsedError.line := Some 2;
       ParsedError.message := Some ("Unrecognized text or keyword" : str);
       ParsedError.hint := Some ("Check for typos, invalid keywords, or unsupported syntax" : str);
       ParsedError.context := None |} /\
  ParsedError.line (parseErrorMessage unknownMessage "x") = None /\
  ParsedError.message (parseErrorMessage unknownMessage "x") = Some ("Something went wrong" : str).
Proof.
  destruct (first_match_cascade lexicalThenAlternatives "x") as (_ & Hfirst & _).
  destruct (first_match_cascade unknownMessage "x") as (_ & _ & Hnone).
  split_and!.
  - discriminate.
  - etrans.
    + apply (Hfirst [parseErrorPattern] lexicalErrorPattern
               [noDiagramTypePattern; unexpectedCharPattern; expectingTokenPattern;
                alternativesPattern]
               {| index := 0; matched := "Lexical error on line 2"; captures := ["2" : str] |});
        [reflexivity | by repeat constructor | reflexivity].
    + reflexivity.
  - apply Hnone. by repeat constructor.
  - apply Hnone. by repeat constructor.
Defined.

(** ** Token hints *)

Lemma eqb_eq a : forall b, JS.eqb a b = true <-> a = b.
Proof.
  induction a as [|x a IH]; intros [|y b]; simpl; try done.
  rewrite andb_true_iff, IH. split.
  - intros [Hx ->]. apply Ascii.eqb_eq in Hx. by subst.
  - intros [= -> ->]. split; [apply Ascii.eqb_refl|done].
Qed.

(** A token that is a key of the table gets the table's message and hint. *)
Lemma handleParseError_listed errorMessage m em h :
  exec EXPECTING_GOT errorMessage = Some em ->
  ownProperty TOKEN_HINTS (capture em 1) = Some h ->
  ParsedError.message (handleParseError errorMessage m) = Some (TokenHint.message h) /\
  ParsedError.hint (handleParseError errorMessage m) = Some (TokenHint.hint h).
Proof.
  intros Hem Hh. unfold handleParseError, getTokenHint, getProperty. rewrite Hem.
  cbv zeta. by rewrite Hh.
Qed.

(** A token that is neither a key of the table nor a name found on
    [Object.prototype] gets the generic message, which quotes the token. *)
Lemma handleParseError_unlisted errorMessage m em :
  exec EXPECTING_GOT errorMessage = Some em ->
  ownProperty TOKEN_HINTS (capture em 1) = None ->
  capture em 1 ∉ OBJECT_PROTOTYPE ->
  ParsedError.message (handleParseError errorMessage m)
    = Some (quoted "Syntax error: unexpected " (capture em 1) "") /\
  ParsedError.hint (handleParseError errorMessage m)
    = Some ("Check the syntax near this position" : str).
Proof.
  intros Hem Hh Hp. unfold handleParseError, getTokenHint, getProperty. rewrite Hem.
  cbv zeta. rewrite Hh.
  assert (He : existsb (JS.eqb (capture em 1)) OBJECT_PROTOTYPE = false).
  { apply not_true_is_false. intros (k & Hk & He)%existsb_exists.
    apply eqb_eq in He as <-. by apply Hp, list_elem_of_In. }
  by rewrite He.
Qed.

(** Every one of the 28 keys of the table, put in such a message, is
    answered with its entry. *)
Lemma every_listed_token :
  forallb (fun '(k, h) => sameHint (parseErrorMessage (unexpectedToken k) "x") h)
          TOKEN_HINTS = true /\
  length TOKEN_HINTS = 28%nat.
Proof. split; vm_compute; reflexivity. Qed.

(** C8. At the token [constructor], which is not a key of [TOKEN_HINTS],
    the lookup finds the function that every object inherits, so the
    diagnostic has neither the generic message that quotes the token nor a
    hint: its [message] and [hint] are [undefined], and so is the [detail]
    of the reported error. *)
Theorem inherited_token_name :
  ownProperty TOKEN_HINTS "constructor" = None /\
  exec EXPECTING_GOT inheritedName
    = Some {| index := 56;
              matched := "Expecting 'SQE', 'DOUBLECIRCLEEND', 'PE', got 'constructor'";
              captures := ["constructor" : str] |} /\
  ParsedError.line (parseErrorMessage inheritedName "x") = Some 3 /\
  ParsedError.message (parseErrorMessage inheritedName "x") = None /\
  ParsedError.hint (parseErrorMessage inheritedName "x") = None /\
  ParsedError.message (parseErrorMessage inheritedName "x")
    <> Some (quoted "Syntax error: unexpected " "constructor" "") /\
  ValidationError.detail
    (parseFailure {| CodeBlock.code := "x"; CodeBlock.startLine := 1 |} (ErrorObject inheritedName))
    = None.
Proof.
  assert (Hm : ParsedError.message (parseErrorMessage inheritedName "x") = None)
    by (vm_compute; reflexivity).
  split_and!; try (vm_compute; reflexivity). by rewrite Hm.
Qed.

(** ** The context of a reported failure *)

(** C10, as stated, fails: the translator's context can be the empty string,
    which is not [null], and the reported context is then the first line of
    the code. *)
Lemma context_counterexample :
  ~ (forall block error c,
       ParsedError.context (parseErrorMessage (errorMessageOf error) (CodeBlock.code block)) = Some c ->
       ValidationError.context (parseFailure block error) = Some c).
Proof.
  intros H.
  assert (Hp : ParsedError.context (parseErrorMessage ellipsisOnly (CodeBlock.code someBlock)) = Some [])
    by (vm_compute; reflexivity).
  assert (Hv : ValidationError.context (parseFailure someBlock (ErrorObject ellipsisOnly))
               = Some ("flowchart LR" : str)) by (vm_compute; reflexivity).
  specialize (H someBlock (ErrorObject ellipsisOnly) [] Hp). rewrite Hv in H. discriminate H.
Qed.

Lemma or_else_spec o d :
  JS.or_else o d = match o with Some (c :: s) => Some (c :: s) | _ => d end.
Proof. by destruct o as [[|c s]|]. Qed.

(** C10, amended. The error of a parser failure always carries a context: the
    translator's context when that is neither [null] nor the empty string,
    and otherwise the first line of the block's trimmed code cut at 40
    characters. *)
Theorem failure_context (parse : str -> ParseOutcome)
    (block trimmedBlock : CodeBlock.t) (error : Thrown) :
  checkNotEmpty block = ok trimmedBlock ->
  parse (CodeBlock.code trimmedBlock) = Rejects error ->
  let parsed := parseErrorMessage (errorMessageOf error) (CodeBlock.code trimmedBlock) in
  let firstLine := take 40 (upTo JS.newline (JS.trim (CodeBlock.code block))) in
  exists e,
    validate parse block = err e /\
    ValidationError.context e =
      Some (match ParsedError.context parsed with
            | Some (c :: s) => c :: s
            | _ => firstLine
            end).
Proof.
  intros Hok Hrej parsed firstLine. exists (parseFailure trimmedBlock error). split.
  - unfold validate, parseResult. by rewrite Hok, Hrej.
  - unfold parseFailure, toValidationError. cbn [ValidationError.context]. fold parsed.
    rewrite or_else_spec, split_first. cbn [fmap option_fmap option_map].
    rewrite substring_take by lia.
    apply checkNotEmpty_ok in Hok as [-> _]. cbn [CodeBlock.code].
    by destruct (ParsedError.context parsed) as [[|c s]|].
Qed.

Lemma failure_context_witness :
  exists e,
    validate (rejecting ellipsisOnly) someBlock = err e /\
    ValidationError.context e = Some ("flowchart LR" : str).
Proof.
  destruct (failure_context (rejecting ellipsisOnly) someBlock someBlock
              (ErrorObject ellipsisOnly) eq_refl eq_refl) as (e & Hv & Hc).
  exists e. split; [exact Hv | exact Hc].
Defined.

(** ** The order of extraction *)

Lemma first_some_inv {A} (a b : option A) x :
  first_some a b = Some x -> a = Some x \/ b = Some x.
Proof. destruct a; simpl; eauto. Qed.

(** A successful match ends in a success of its continuation. *)
Lemma quant_result {R} ic g c (k : str -> str -> option R) rest : forall mn mx prev x,
  quant ic g c mn mx k prev rest = Some x -> exists p q, k p q = Some x.
Proof.
  induction rest as [|ch rest IH]; intros mn mx prev x H; simpl in H.
  - destruct g; apply first_some_inv in H as [H|H];
      destruct mn, mx as [[|?]|]; simpl in H; try done; eauto.
  - destruct g; apply first_some_inv in H as [H|H];
      destruct mn, mx as [[|?]|], (cmatch ic c ch); simpl in H; try done; eauto.
Qed.

Lemma rmatch_result {R} ic r : forall (k : str -> str -> list str -> option R) prev rest caps x,
  rmatch ic r k prev rest caps = Some x -> exists p q cs, k p q cs = Some x.
Proof.
  induction r as [|c|r1 IH1 r2 IH2|g mn mx c|r IH|r IH| |]; intros k prev rest caps x; simpl.
  - eauto.
  - destruct rest as [|ch rest]; [done|]. destruct (cmatch ic c ch); [eauto|done].
  - intros H. apply IH1 in H as (p & q & cs & H). by apply IH2 in H.
  - intros H. apply quant_result in H as (p & q & H). eauto.
  - intros [H|H]%first_some_inv; eauto.
  - intros H. apply IH in H as (p & q & cs & H). eauto.
  - destruct prev; [eauto|done].
  - destruct (xorb _ _); [eauto|done].
Qed.

Lemma matchAt_index ic r prev rest m :
  matchAt ic r prev rest = Some m -> index m = length prev.
Proof.
  unfold matchAt. intros H. apply rmatch_result in H as (p & q & cs & [= <-]). done.
Qed.

Lemma scan_ascending ic r rest : forall skip prev,
  Forall (fun m => (length prev <= index m)%nat) (scan ic r skip prev rest) /\
  ascending (scan ic r skip prev rest).
Proof.
  unfold ascending.
  induction rest as [|c rest IH]; intros skip prev; simpl.
  - destruct skip; [|split; constructor].
    destruct (matchAt ic r prev []) as [m|] eqn:E; [|split; constructor].
    apply matchAt_index in E. split; repeat constructor. lia.
  - assert (Hnext : forall n,
        Forall (fun m => (S (length prev) <= index m)%nat) (scan ic r n (c :: prev) rest) /\
        StronglySorted (fun a b => (index a < index b)%nat) (scan ic r n (c :: prev) rest))
      by (intros n; apply (IH n (c :: prev))).
    destruct skip as [|n].
    + destruct (matchAt ic r prev (c :: rest)) as [m|] eqn:E.
      * apply matchAt_index in E. destruct (Hnext (length (matched m) - 1)%nat) as [Hge Hs].
        split.
        -- constructor; [lia|]. eapply Forall_impl; [exact Hge|]. simpl. lia.
        -- constructor; [done|]. eapply Forall_impl; [exact Hge|]. simpl. lia.
      * destruct (Hnext 0%nat) as [Hge Hs]. split; [|done].
        eapply Forall_impl; [exact Hge|]. simpl. lia.
    + destruct (Hnext n) as [Hge Hs]. split; [|done].
      eapply Forall_impl; [exact Hge|]. simpl. lia.
Qed.

(** The matches of a [g] pattern come at increasing positions. *)
Lemma matchAll_ascending re s : ascending (matchAll re s).
Proof. apply scan_ascending. Qed.

Lemma countNewlines_app s1 s2 :
  JS.countNewlines (s1 ++ s2) = JS.countNewlines s1 + JS.countNewlines s2.
Proof. unfold JS.countNewlines. rewrite filter_app, length_app. lia. Qed.

Lemma countNewlines_nonneg s : 0 <= JS.countNewlines s.
Proof. unfold JS.countNewlines. lia. Qed.

Lemma lines_before_mono html (i j : nat) :
  (i <= j)%nat ->
  JS.countNewlines (JS.substring html 0 (Z.of_nat i))
  <= JS.countNewlines (JS.substring html 0 (Z.of_nat j)).
Proof.
  intros Hij. rewrite !substring_take, !Nat2Z.id by lia.
  replace j with (i + (j - i))%nat by lia. rewrite <- take_take_drop.
  rewrite countNewlines_app. pose proof (countNewlines_nonneg (take (j - i) (drop i html))). lia.
Qed.

Lemma push_each {A B} (f : A -> B) (xs : list A) : forall acc,
  foldl (fun blocks x => blocks ++ [f x]) acc xs = acc ++ map f xs.
Proof.
  induction xs as [|x xs IH]; intros acc; simpl; [by rewrite app_nil_r|].
  by rewrite IH, <- app_assoc.
Qed.

Lemma extractMermaidFromHtml_spec html startLine :
  extractMermaidFromHtml html startLine =
  blocksOfPattern html startLine (carrier "pre" "mermaid") ++
  blocksOfPattern html startLine (carrier "div" "mermaid") ++
  blocksOfPattern html startLine (carrier "code" "language-mermaid").
Proof.
  unfold extractMermaidFromHtml, HTML_MERMAID_PATTERNS, blocksOfPattern. cbn [foldl].
  rewrite !push_each. by rewrite app_nil_l, <- app_assoc.
Qed.

Lemma extractMermaidBlocks_from tokens : forall acc,
  foldl (fun blocks token =>
           if JS.eqb (Token.type token) "fence" then
             let lang := JS.toLowerCase (JS.trim (Token.info token)) in
             if JS.eqb lang "mermaid" then
               blocks ++ [ {| CodeBlock.code := Token.content token;
                              CodeBlock.startLine := Token.lineNumber token |} ]
             else blocks
           else if JS.eqb (Token.type token) "html_block" then
             blocks ++ extractMermaidFromHtml (Token.content token) (Token.lineNumber token)
           else blocks) acc tokens
  = acc ++ concat (map blocksOfToken tokens).
Proof.
  induction tokens as [|token tokens IH]; intros acc; cbn [foldl map concat];
    [by rewrite app_nil_r|].
  rewrite IH. unfold blocksOfToken. cbv zeta.
  destruct (JS.eqb (Token.type token) "fence");
    [destruct (JS.eqb _ "mermaid")|destruct (JS.eqb (Token.type token) "html_block")];
    by rewrite <- ?app_assoc.
Qed.

Lemma blocksOfPattern_order html startLine pattern :
  inDocumentOrder (blocksOfPattern html startLine pattern).
Proof.
  unfold inDocumentOrder, blocksOfPattern.
  pose proof (matchAll_ascending pattern html) as Hs. unfold ascending in Hs.
  induction Hs as [|m ms Hs IH Hm]; simpl; constructor; [done|].
  apply List.Forall_forall. intros b Hb. apply in_map_iff in Hb as (m' & <- & Hin).
  rewrite List.Forall_forall in Hm. apply Hm in Hin.
  unfold blockOfMatch. simpl.
  pose proof (lines_before_mono html (index m) (index m')). lia.
Qed.

(** C4, as stated, fails: the fragment of a [div] carrier that stands before
    a [pre] carrier in the same token is extracted after it. *)
Lemma document_order_counterexample :
  extractMermaidBlocks [divThenPre] =
    [ {| CodeBlock.code := "sequenceDiagram
  Alice->>Bob: Hello"; CodeBlock.startLine := 5 |};
      {| CodeBlock.code := "flowchart LR
  A --> B"; CodeBlock.startLine := 1 |} ] /\
  ~ inDocumentOrder (extractMermaidBlocks [divThenPre]).
Proof.
  assert (H : extractMermaidBlocks [divThenPre] =
    [ {| CodeBlock.code := "sequenceDiagram
  Alice->>Bob: Hello"; CodeBlock.startLine := 5 |};
      {| CodeBlock.code := "flowchart LR
  A --> B"; CodeBlock.startLine := 1 |} ]) by (vm_compute; reflexivity).
  split; [exact H|]. rewrite H. intros Hs.
  apply StronglySorted_inv in Hs as [_ Hs]. apply Forall_inv in Hs. simpl in Hs. lia.
Qed.

(** C4, amended. The fragments come token by token in the order of the
    tokens; those of one HTML token are grouped by tag shape, [pre] first,
    then [div], then [code]; and inside one tag shape they follow the order
    of the carriers, at increasing positions and non-decreasing lines. *)
Theorem extraction_order (tokens : list Token.t) :
  extractMermaidBlocks tokens = concat (map blocksOfToken tokens) /\
  (forall html startLine,
     extractMermaidFromHtml html startLine =
     blocksOfPattern html startLine (carrier "pre" "mermaid") ++
     blocksOfPattern html startLine (carrier "div" "mermaid") ++
     blocksOfPattern html startLine (carrier "code" "language-mermaid")) /\
  (forall html startLine pattern,
     ascending (matchAll pattern html) /\
     inDocumentOrder (blocksOfPattern html startLine pattern)).
Proof.
  split_and!.
  - unfold extractMermaidBlocks. by rewrite extractMermaidBlocks_from.
  - apply extractMermaidFromHtml_spec.
  - intros html startLine pattern. split.
    + apply matchAll_ascending.
    + apply blocksOfPattern_order.
Qed.

(** ** The lazy initialisation under concurrent first calls *)

Lemma suspended_app l1 l2 : suspended (l1 ++ l2) = (suspended l1 + suspended l2)%nat.
Proof. unfold suspended. by rewrite omap_app, length_app. Qed.

Lemma suspended_cons t l : suspended (t :: l) = (isSuspended t + suspended l)%nat.
Proof. by destruct t. Qed.

Lemma suspended_insert l i t t' :
  l !! i = Some t ->
  (suspended (<[i := t']> l) + isSuspended t = suspended l + isSuspended t')%nat.
Proof.
  intros Hl. rewrite insert_take_drop by by eapply lookup_lt_Some.
  rewrite <- (take_drop_middle l i t Hl) at 3.
  rewrite !suspended_app, !suspended_cons. lia.
Qed.

Lemma initializations_app e1 e2 :
  initializations (e1 ++ e2) = (initializations e1 + initializations e2)%nat.
Proof. unfold initializations. by rewrite omap_app, length_app. Qed.

Lemma step_initializations parse m i :
  (initializations (trace (step parse m i)) + suspended (tasks (step parse m i))
   = initializations (trace m) + suspended (tasks m))%nat.
Proof.
  unfold step. destruct (tasks m !! i) as [[b|b|r]|] eqn:Hl; simpl; try done.
  - rewrite initializations_app. change (initializations [Initialize]) with 1%nat.
    pose proof (suspended_insert _ _ _ (ReadyToParse b) Hl). simpl in *. lia.
  - rewrite initializations_app.
    change (initializations [Parse i (CodeBlock.code b)]) with 0%nat.
    pose proof (suspended_insert _ _ _ (Settled (parseResult parse b)) Hl). simpl in *. lia.
Qed.

Lemma steps_initializations parse schedule : forall m,
  (initializations (trace (foldl (step parse) m schedule))
   + suspended (tasks (foldl (step parse) m schedule))
   = initializations (trace m) + suspended (tasks m))%nat.
Proof.
  induction schedule as [|i schedule IH]; intros m; simpl; [done|].
  by rewrite IH, step_initializations.
Qed.

Lemma start_initializations m block :
  initializations (trace (start m block)) = initializations (trace m).
Proof.
  unfold start, getMermaid_enter. destruct (checkNotEmpty block); [|done].
  destruct (Process.mermaidInstance (process m)); simpl; [by rewrite app_nil_r|].
  destruct (Process.window (process m)); simpl; rewrite initializations_app.
  - change (initializations [ImportMermaid]) with 0%nat. lia.
  - change (initializations [DomSetup; ImportMermaid]) with 0%nat. lia.
Qed.

Lemma starts_initializations blocks : forall m,
  initializations (trace (foldl start m blocks)) = initializations (trace m).
Proof.
  induction blocks as [|b blocks IH]; intros m; simpl; [done|].
  by rewrite IH, start_initializations.
Qed.

Lemma suspended_initial p blocks :
  Process.mermaidInstance p = false ->
  suspended (map (initTask p) blocks) = length (valuesOf (map checkNotEmpty blocks)).
Proof.
  intros Hp. induction blocks as [|b blocks IH]; [done|].
  cbn [map]. rewrite suspended_cons, IH. unfold valuesOf, initTask. simpl. rewrite Hp.
  by destruct (checkNotEmpty b).
Qed.

Lemma suspended_settled results : suspended (map Settled results) = 0%nat.
Proof. induction results as [|r results IH]; [done|]. cbn [map]. by rewrite suspended_cons, IH. Qed.

Lemma join_initializations m :
  initializations (trace (join OnError m)) = initializations (trace m).
Proof.
  unfold join. destruct (mapM settled (tasks m)) as [results|]; [|done].
  destruct (combineWithAllErrors results) as [|errors]; [done|]. simpl.
  rewrite initializations_app.
  assert (H : initializations (map OnError errors) = 0%nat)
    by (induction errors; [done|by simpl]).
  rewrite H. lia.
Qed.

(** C5. In a process where the parser is not yet initialised, the full mode
    calls [mermaid.initialize] once for every block that passes the empty
    check, whatever the schedule: every validation enters [getMermaid] before
    any of them has stored the instance, and the variable holds the finished
    instance only, not the initialisation in flight. *)
Theorem initialization_per_validation (parse : str -> ParseOutcome) (p : Process.t)
    (schedule : list nat) (blocks : list CodeBlock.t) :
  Process.mermaidInstance p = false ->
  fair (length blocks) schedule ->
  initializations (trace (runFull parse p schedule blocks))
  = length (valuesOf (map checkNotEmpty blocks)).
Proof.
  intros Hp Hfair. unfold runFull. rewrite join_initializations.
  pose proof (steps_initializations parse schedule
                (foldl start {| process := p; tasks := []; trace := [] |} blocks)) as Hsteps.
  rewrite fair_settles, suspended_settled in Hsteps by done.
  rewrite starts_initializations in Hsteps.
  destruct (starts_spec blocks {| process := p; tasks := []; trace := [] |}) as (Ht & _).
  rewrite Ht in Hsteps. simpl in Hsteps.
  rewrite suspended_initial in Hsteps by done.
  change (initializations []) with 0%nat in Hsteps. lia.
Qed.

Lemma initialization_per_validation_witness :
  initializations (trace (runFull (fun _ => Resolves) Process.fresh [0; 1; 0; 1]%nat twoDiagrams))
  = 2%nat.
Proof.
  apply (initialization_per_validation (fun _ => Resolves) Process.fresh [0; 1; 0; 1]%nat twoDiagrams).
  - reflexivity.
  - intros i Hi. destruct i as [|[|i]]; [vm_compute; lia | vm_compute; lia | simpl in Hi; lia].
Defined.

(** The run of that document, event by event: one DOM set-up, and two
    initialisations before the first call of the parser. *)
Lemma two_first_calls :
  trace (runFull (fun _ => Resolves) Process.fresh [0; 1; 0; 1]%nat twoDiagrams) =
  [ DomSetup; ImportMermaid; ImportMermaid; Initialize; Initialize;
    Parse 0 "flowchart LR
  A --> B";
    Parse 1 "sequenceDiagram
  Alice->>Bob: Hello" ].
Proof. vm_compute. reflexivity. Qed.

(** * Further properties *)

(** ** What the full mode does and does not do *)

Lemma handleParseError_line errorMessage m :
  ParsedError.line (handleParseError errorMessage m) = Some (JS.parseInt (capture m 1)).
Proof.
  unfold handleParseError. destruct (exec EXPECTING_GOT errorMessage) as [em|]; [|done].
  by destruct (getTokenHint (capture em 1)).
Qed.

(** X1. The translator leaves the line unresolved exactly for the messages
    that none of its six patterns matches. *)
Theorem line_unresolved_iff (errorMessage code : str) :
  ParsedError.line (parseErrorMessage errorMessage code) = None <->
  Forall (fun r => Pattern.applies r errorMessage = None) CASCADE.
Proof.
  split.
  - intros H. unfold parseErrorMessage in H.
    destruct (exec PARSE_ERROR errorMessage) eqn:E1; [by rewrite handleParseError_line in H|].
    destruct (exec LEXICAL_ERROR errorMessage) eqn:E2; [done|].
    destruct (JS.includes errorMessage "No diagram type detected") eqn:E3; [done|].
    destruct (exec UNEXPECTED_CHAR errorMessage) eqn:E4; [done|].
    destruct (exec EXPECTING_TOKEN errorMessage) eqn:E5; [done|].
    destruct (JS.includes errorMessage "Expecting: one of these possible") eqn:E6; [done|].
    repeat constructor; cbn [Pattern.applies parseErrorPattern lexicalErrorPattern
      noDiagramTypePattern unexpectedCharPattern expectingTokenPattern alternativesPattern];
      unfold containing; by rewrite ?E3, ?E6.
  - intros H. rewrite parseErrorMessage_cascade, firstMatch_none by done. done.
Qed.

Lemma errorsOf_nil {T E} (results : list (Result T E)) :
  errorsOf results = [] <-> Forall (fun r => isOk r = true) results.
Proof.
  unfold errorsOf. induction results as [|r results IH]; simpl.
  - split; [constructor|done].
  - destruct r as [v|e]; simpl.
    + rewrite IH. split; [by constructor|]. by intros [_ H]%Forall_cons.
    + split; [done|]. by intros [H _]%Forall_cons.
Qed.

(** X2. The full mode reports nothing exactly when every block passes the
    empty check and is accepted by the parser. *)
Theorem full_mode_silent_iff (parse : str -> ParseOutcome) (p : Process.t)
    (schedule : list nat) (blocks : list CodeBlock.t) :
  fair (length blocks) schedule ->
  reports (trace (runFull parse p schedule blocks)) = [] <->
  Forall (fun b => isOk (validate parse b) = true) blocks.
Proof.
  intros Hfair. rewrite runFull_reports by done. rewrite errorsOf_nil.
  by rewrite Forall_fmap.
Qed.

Lemma full_mode_silent_iff_witness :
  reports (trace (runFull (fun _ => Resolves) Process.fresh [1; 0; 1; 0]%nat twoDiagrams)) = [].
Proof.
  apply (full_mode_silent_iff (fun _ => Resolves) Process.fresh [1; 0; 1; 0]%nat twoDiagrams).
  - exact fair_2.
  - repeat constructor.
Defined.

Lemma callsFor_app i e1 e2 :
  callsFor i (e1 ++ e2) = (callsFor i e1 + callsFor i e2)%nat.
Proof. unfold callsFor, parseCalls. by rewrite omap_app, filter_app, length_app. Qed.

Lemma pendingAt_insert ts k t i :
  (k < length ts)%nat ->
  pendingAt (<[k := t]> ts) i = if decide (k = i) then isPending t else pendingAt ts i.
Proof.
  intros Hk. unfold pendingAt. destruct (decide (k = i)) as [->|Hne].
  - by rewrite list_lookup_insert_eq.
  - by rewrite list_lookup_insert_ne.
Qed.

Lemma step_calls parse m k i :
  (callsFor i (trace (step parse m k)) + pendingAt (tasks (step parse m k)) i
   = callsFor i (trace m) + pendingAt (tasks m) i)%nat.
Proof.
  unfold step. destruct (tasks m !! k) as [[b|b|r]|] eqn:Hk; simpl; try done.
  - rewrite callsFor_app, pendingAt_insert by by eapply lookup_lt_Some.
    change (callsFor i [Initialize]) with 0%nat.
    destruct (decide (k = i)) as [<-|Hne]; [|lia].
    unfold pendingAt. rewrite Hk. simpl. lia.
  - rewrite callsFor_app, pendingAt_insert by by eapply lookup_lt_Some.
    unfold callsFor at 2. simpl. rewrite filter_cons, filter_nil.
    destruct (decide (k = i)) as [<-|Hne]; simpl.
    + unfold pendingAt. rewrite Hk. simpl. lia.
    + lia.
Qed.

Lemma steps_calls parse schedule i : forall m,
  (callsFor i (trace (foldl (step parse) m schedule))
   + pendingAt (tasks (foldl (step parse) m schedule)) i
   = callsFor i (trace m) + pendingAt (tasks m) i)%nat.
Proof.
  induction schedule as [|k schedule IH]; intros m; simpl; [done|].
  by rewrite IH, step_calls.
Qed.

Lemma join_callsFor i m : callsFor i (trace (join OnError m)) = callsFor i (trace m).
Proof. unfold callsFor. by rewrite join_parseCalls. Qed.

(** X3. Under a fair schedule the parser is called exactly once for every
    block that passes the empty check, on the trimmed code of the block, and
    never for another block. *)
Theorem one_parse_per_block (parse : str -> ParseOutcome) (p : Process.t)
    (schedule : list nat) (blocks : list CodeBlock.t) (i : nat) (block : CodeBlock.t) :
  fair (length blocks) schedule ->
  blocks !! i = Some block ->
  let events := trace (runFull parse p schedule blocks) in
  callsFor i events = (if isOk (checkNotEmpty block) then 1 else 0)%nat /\
  forall c, (i, c) ∈ parseCalls events -> c = JS.trim (CodeBlock.code block).
Proof.
  intros Hfair Hi events. split.
  - unfold events, runFull. rewrite join_callsFor.
    pose proof (steps_calls parse schedule i
                  (foldl start {| process := p; tasks := []; trace := [] |} blocks)) as H.
    unfold pendingAt in H at 1. rewrite fair_settles in H by done.
    rewrite !list_lookup_fmap, Hi in H. simpl in H.
    destruct (starts_spec blocks {| process := p; tasks := []; trace := [] |})
      as (Ht & _ & _ & Hp).
    unfold callsFor in H at 2. rewrite Hp in H. unfold pendingAt in H. rewrite Ht in H.
    simpl in H. rewrite list_lookup_fmap, Hi in H. simpl in H.
    rewrite Nat.add_0_r in H. rewrite H. unfold initTask.
    destruct (checkNotEmpty block); simpl; [|done].
    by destruct (Process.mermaidInstance p).
  - intros c Hin. apply runFull_parseCalls in Hin as (b & tb & Hb & Hok & ->).
    rewrite Hi in Hb. injection Hb as <-. by apply checkNotEmpty_ok in Hok as [-> _].
Qed.

Lemma one_parse_per_block_witness :
  callsFor 1 (trace (rule (rejecting unclosedBracket) false Process.fresh [1; 0; 1; 0]%nat twoFailing))
  = 1%nat /\
  callsFor 0 (trace (rule (rejecting unclosedBracket) false Process.fresh [1; 0; 1; 0]%nat twoFailing))
  = 0%nat.
Proof.
  split.
  - apply (one_parse_per_block (rejecting unclosedBracket) Process.fresh [1; 0; 1; 0]%nat
             (extractMermaidBlocks twoFailing) 1
             {| CodeBlock.code := "flowchart LR
A --> B
C --> [D
"; CodeBlock.startLine := 6 |}); [exact fair_2 | reflexivity].
  - apply (one_parse_per_block (rejecting unclosedBracket) Process.fresh [1; 0; 1; 0]%nat
             (extractMermaidBlocks twoFailing) 0
             {| CodeBlock.code := "
"; CodeBlock.startLine := 2 |}); [exact fair_2 | reflexivity].
Defined.

(** ** The stored instance and the set-up of the DOM *)

Lemma join_trace m results :
  tasks m = map Settled results ->
  trace (join OnError m) = trace m ++ map OnError (errorsOf results) /\
  process (join OnError m) = process m.
Proof.
  intros Ht. unfold join.
  assert (Hm : mapM settled (tasks m) = Some results).
  { rewrite Ht. apply mapM_Some. clear Ht.
    induction results as [|r results IH]; simpl; constructor; done. }
  rewrite Hm, combineWithAllErrors_spec.
  destruct (errorsOf results) as [|e es] eqn:He; simpl; [|done].
  by rewrite app_nil_r.
Qed.

Lemma join_process m : process (join OnError m) = process m.
Proof.
  unfold join. destruct (mapM settled (tasks m)) as [results|]; [|done].
  by destruct (combineWithAllErrors results).
Qed.

(** X4. A document whose blocks all trim to the empty string: whatever the
    schedule, the run consists of the reports of the empty-content errors,
    one per block in the order of the blocks, with no set-up of the DOM, no
    import, no initialisation and no call of the parser, and it leaves the
    process as it found it. *)
Theorem empty_blocks_touch_nothing (parse : str -> ParseOutcome) (p : Process.t)
    (schedule : list nat) (blocks : list CodeBlock.t) :
  Forall (fun b => JS.trim (CodeBlock.code b) = []) blocks ->
  trace (runFull parse p schedule blocks)
    = map (fun b => OnError (emptyContentError (CodeBlock.startLine b))) blocks /\
  process (runFull parse p schedule blocks) = p.
Proof.
  intros Hempty. unfold runFull.
  assert (Hstart : forall m,
    foldl start m blocks =
    {| process := process m;
       tasks := tasks m ++ map (fun b => Settled (err (emptyContentError (CodeBlock.startLine b)))) blocks;
       trace := trace m |}).
  { induction Hempty as [|b bs Hb _ IH]; intros m; simpl.
    - rewrite app_nil_r. by destruct m.
    - rewrite IH. unfold start. rewrite (checkNotEmpty_empty b Hb). simpl.
      by rewrite <- app_assoc. }
  rewrite Hstart. simpl.
  rewrite steps_settled.
  2:{ simpl. apply Forall_fmap, Forall_true. intros b. by eexists. }
  set (results := map (fun b => @err CodeBlock.t _ (emptyContentError (CodeBlock.startLine b))) blocks).
  destruct (join_trace
              {| process := p;
                 tasks := map (fun b => Settled (err (emptyContentError (CodeBlock.startLine b)))) blocks;
                 trace := [] |} results) as [Ht Hp].
  { simpl. unfold results. by rewrite map_map. }
  rewrite Ht, Hp. simpl. split; [|done].
  f_equal. unfold results, errorsOf. clear.
  induction blocks as [|b bs IH]; simpl; [done|]. simpl in IH. by rewrite <- IH.
Qed.

Lemma empty_blocks_touch_nothing_witness :
  trace (runFull (fun _ => Resolves) Process.fresh [0; 0]%nat [whitespaceOnly])
  = [OnError (emptyContentError 2)].
Proof.
  apply (empty_blocks_touch_nothing (fun _ => Resolves) Process.fresh [0; 0]%nat [whitespaceOnly]).
  by repeat constructor.
Defined.

Lemma domSetups_app e1 e2 : domSetups (e1 ++ e2) = (domSetups e1 + domSetups e2)%nat.
Proof. unfold domSetups. by rewrite omap_app, length_app. Qed.

Lemma imports_app e1 e2 : imports (e1 ++ e2) = (imports e1 + imports e2)%nat.
Proof. unfold imports. by rewrite omap_app, length_app. Qed.

Lemma step_setups parse m i :
  domSetups (trace (step parse m i)) = domSetups (trace m) /\
  imports (trace (step parse m i)) = imports (trace m) /\
  Process.window (process (step parse m i)) = Process.window (process m).
Proof.
  unfold step. destruct (tasks m !! i) as [[b|b|r]|]; simpl; try done;
    rewrite domSetups_app, imports_app; simpl; split_and!; try done;
    unfold domSetups, imports; simpl; lia.
Qed.

Lemma steps_setups parse schedule : forall m,
  domSetups (trace (foldl (step parse) m schedule)) = domSetups (trace m) /\
  imports (trace (foldl (step parse) m schedule)) = imports (trace m) /\
  Process.window (process (foldl (step parse) m schedule)) = Process.window (process m).
Proof.
  induction schedule as [|i schedule IH]; intros m; simpl; [done|].
  destruct (IH (step parse m i)) as (H1 & H2 & H3).
  destruct (step_setups parse m i) as (G1 & G2 & G3).
  rewrite H1, H2, H3, G1, G2, G3. done.
Qed.

Lemma join_setups m :
  domSetups (trace (join OnError m)) = domSetups (trace m) /\
  imports (trace (join OnError m)) = imports (trace m).
Proof.
  unfold join. destruct (mapM settled (tasks m)) as [results|]; [|done].
  destruct (combineWithAllErrors results) as [|errors]; [done|]. simpl.
  rewrite domSetups_app, imports_app.
  assert (H : domSetups (map OnError errors) = 0%nat /\ imports (map OnError errors) = 0%nat)
    by (induction errors; [done|by simpl]).
  destruct H as [-> ->]. lia.
Qed.

Lemma start_setups m b :
  let enter := negb (Process.mermaidInstance (process m)) && passesEmptyCheck b in
  domSetups (trace (start m b)) =
    (domSetups (trace m) + if enter && negb (Process.window (process m)) then 1 else 0)%nat /\
  imports (trace (start m b)) = (imports (trace m) + if enter then 1 else 0)%nat /\
  Process.window (process (start m b)) = Process.window (process m) || enter /\
  Process.mermaidInstance (process (start m b)) = Process.mermaidInstance (process m).
Proof.
  unfold start, getMermaid_enter, passesEmptyCheck.
  destruct (checkNotEmpty b) as [tb|e]; simpl.
  - destruct (Process.mermaidInstance (process m)) eqn:Hi,
             (Process.window (process m)) eqn:Hw; simpl;
      rewrite ?app_nil_r, ?domSetups_app, ?imports_app, ?Hi, ?Hw;
      unfold domSetups, imports; simpl; split_and!; try lia; done.
  - rewrite andb_false_r, orb_false_r. simpl. split_and!; try lia; done.
Qed.

Lemma starts_setups blocks : forall m,
  let m' := foldl start m blocks in
  let entered := negb (Process.mermaidInstance (process m)) && existsb passesEmptyCheck blocks in
  domSetups (trace m') =
    (domSetups (trace m) + if entered && negb (Process.window (process m)) then 1 else 0)%nat /\
  imports (trace m') =
    (imports (trace m) +
     if Process.mermaidInstance (process m) then 0
     else length (filter (fun b => passesEmptyCheck b = true) blocks))%nat /\
  Process.window (process m') = Process.window (process m) || entered.
Proof.
  induction blocks as [|b blocks IH]; intros m; simpl.
  - rewrite andb_false_r, orb_false_r. simpl. split_and!; try lia; try done.
    destruct (Process.mermaidInstance (process m)); lia.
  - destruct (IH (start m b)) as (H1 & H2 & H3). rewrite H1, H2, H3. clear IH H1 H2 H3.
    destruct (start_setups m b) as (G1 & G2 & G3 & G4). rewrite G1, G2, G3, G4.
    rewrite filter_cons.
    destruct (Process.mermaidInstance (process m)), (Process.window (process m)),
             (passesEmptyCheck b) eqn:Hb, (existsb passesEmptyCheck blocks);
      rewrite ?decide_True by done; rewrite ?decide_False by done;
      simpl; split_and!; try lia; done.
Qed.

(** X5. The set-up of the DOM and the imports of a run, under any schedule:
    the DOM is set up once when the process has neither the instance nor a
    [window] and some block passes the empty check, and not at all
    otherwise; the import is requested once for every block that passes the
    empty check when the instance is not stored, and never when it is. *)
Theorem setups_of_a_run (parse : str -> ParseOutcome) (p : Process.t)
    (schedule : list nat) (blocks : list CodeBlock.t) :
  let events := trace (runFull parse p schedule blocks) in
  domSetups events =
    (if negb (Process.mermaidInstance p) && negb (Process.window p)
        && existsb passesEmptyCheck blocks then 1 else 0)%nat /\
  imports events =
    (if Process.mermaidInstance p then 0
     else length (filter (fun b => passesEmptyCheck b = true) blocks))%nat.
Proof.
  intros events. unfold events, runFull.
  destruct (join_setups (foldl (step parse)
              (foldl start {| process := p; tasks := []; trace := [] |} blocks) schedule))
    as [-> ->].
  destruct (steps_setups parse schedule
              (foldl start {| process := p; tasks := []; trace := [] |} blocks))
    as (-> & -> & _).
  destruct (starts_setups blocks {| process := p; tasks := []; trace := [] |}) as (-> & -> & _).
  simpl. split; [|done].
  by destruct (Process.mermaidInstance p), (Process.window p), (existsb passesEmptyCheck blocks).
Qed.

Lemma step_instance_mono parse m i :
  Process.mermaidInstance (process m) = true ->
  Process.mermaidInstance (process (step parse m i)) = true.
Proof. unfold step. by destruct (tasks m !! i) as [[b|b|r]|]. Qed.

Lemma steps_instance_mono parse schedule : forall m,
  Process.mermaidInstance (process m) = true ->
  Process.mermaidInstance (process (foldl (step parse) m schedule)) = true.
Proof.
  induction schedule as [|i schedule IH]; intros m Hm; simpl; [done|].
  by apply IH, step_instance_mono.
Qed.

Lemma steps_instance_set parse schedule : forall m,
  (initializations (trace m) < initializations (trace (foldl (step parse) m schedule)))%nat ->
  Process.mermaidInstance (process (foldl (step parse) m schedule)) = true.
Proof.
  induction schedule as [|i schedule IH]; intros m Hlt; simpl in *; [lia|].
  destruct (tasks m !! i) as [[b|b|r]|] eqn:Hi.
  - apply steps_instance_mono. unfold step. by rewrite Hi.
  - apply IH. unfold step in *. rewrite Hi in *. simpl in *.
    rewrite initializations_app. change (initializations [Parse i (CodeBlock.code b)]) with 0%nat. lia.
  - apply IH. unfold step in *. by rewrite Hi in *.
  - apply IH. unfold step in *. by rewrite Hi in *.
Qed.

Lemma suspended_initial_stored p blocks :
  Process.mermaidInstance p = true -> suspended (map (initTask p) blocks) = 0%nat.
Proof.
  intros Hp. induction blocks as [|b blocks IH]; [done|].
  cbn [map]. rewrite suspended_cons, IH. unfold initTask. rewrite Hp.
  by destruct (checkNotEmpty b).
Qed.

Lemma suspended_count p blocks :
  Process.mermaidInstance p = false ->
  suspended (map (initTask p) blocks) = length (filter (fun b => passesEmptyCheck b = true) blocks).
Proof.
  intros Hp. induction blocks as [|b blocks IH]; [done|].
  cbn [map]. rewrite suspended_cons, IH, filter_cons. unfold initTask.
  rewrite Hp. destruct (checkNotEmpty b) eqn:Hc; simpl.
  - rewrite decide_True by (unfold passesEmptyCheck; by rewrite Hc). done.
  - rewrite decide_False by (unfold passesEmptyCheck; by rewrite Hc). done.
Qed.

(** X6. The stored instance is reused. In a process that holds the instance
    a run never initialises the parser, whatever its schedule; and a run
    under a fair schedule over a document with a block that passes the empty
    check leaves the instance stored, so that no later run initialises. *)
Theorem stored_instance_is_reused (parse : str -> ParseOutcome) (p : Process.t)
    (schedule : list nat) (blocks : list CodeBlock.t) :
  (Process.mermaidInstance p = true ->
   initializations (trace (runFull parse p schedule blocks)) = 0%nat /\
   Process.mermaidInstance (process (runFull parse p schedule blocks)) = true) /\
  (fair (length blocks) schedule ->
   existsb passesEmptyCheck blocks = true ->
   Process.mermaidInstance (process (runFull parse p schedule blocks)) = true /\
   forall later laterBlocks,
     initializations
       (trace (runFull parse (process (runFull parse p schedule blocks)) later laterBlocks))
     = 0%nat).
Proof.
  set (m0 := foldl start {| process := p; tasks := []; trace := [] |} blocks).
  destruct (starts_spec blocks {| process := p; tasks := []; trace := [] |}) as (Ht & Hi & _).
  fold m0 in Ht, Hi. simpl in Ht, Hi.
  pose proof (starts_initializations blocks {| process := p; tasks := []; trace := [] |}) as H0.
  fold m0 in H0. change (initializations (trace {| process := p; tasks := []; trace := [] |}))
    with 0%nat in H0.
  pose proof (steps_initializations parse schedule m0) as Hsteps.
  assert (Hstored : forall q sched bs,
    Process.mermaidInstance q = true ->
    initializations (trace (runFull parse q sched bs)) = 0%nat /\
    Process.mermaidInstance (process (runFull parse q sched bs)) = true).
  { intros q sched bs Hq. unfold runFull. rewrite join_initializations, join_process.
    destruct (starts_spec bs {| process := q; tasks := []; trace := [] |}) as (Ht' & Hi' & _).
    simpl in Ht', Hi'.
    pose proof (steps_initializations parse sched
                  (foldl start {| process := q; tasks := []; trace := [] |} bs)) as Hs.
    rewrite starts_initializations, Ht', suspended_initial_stored in Hs by done.
    change (initializations (trace {| process := q; tasks := []; trace := [] |}))
      with 0%nat in Hs.
    split; [lia|]. apply steps_instance_mono. by rewrite Hi'. }
  split; [by apply Hstored|].
  intros Hfair Hsome.
  assert (Hset : Process.mermaidInstance (process (runFull parse p schedule blocks)) = true).
  { unfold runFull. fold m0. rewrite join_process.
    destruct (Process.mermaidInstance p) eqn:Hp.
    - apply steps_instance_mono. by rewrite Hi.
    - apply steps_instance_set. unfold m0 in Hsteps at 2. rewrite fair_settles in Hsteps by done.
      rewrite suspended_settled, Ht, suspended_count in Hsteps by done.
      assert (0 < length (filter (fun b => passesEmptyCheck b = true) blocks))%nat.
      { apply existsb_exists in Hsome as (b & Hin & Hb).
        apply list_elem_of_In in Hin.
        assert (Hf : b ∈ filter (fun b => passesEmptyCheck b = true) blocks)
          by (apply list_elem_of_filter; done).
        destruct (filter _ blocks); [by apply elem_of_nil in Hf|simpl; lia]. }
      lia. }
  split; [done|]. intros later laterBlocks. by apply Hstored.
Qed.

Lemma stored_instance_is_reused_witness :
  initializations
    (trace (runFull (fun _ => Resolves)
              (process (runFull (fun _ => Resolves) Process.fresh [1; 0; 1; 0]%nat twoDiagrams))
              [0; 1]%nat twoDiagrams))
  = 0%nat.
Proof.
  destruct (stored_instance_is_reused (fun _ => Resolves) Process.fresh [1; 0; 1; 0]%nat twoDiagrams)
    as [_ H].
  destruct (H fair_2 eq_refl) as [_ Hlater]. apply Hlater.
Defined.

(** ** Trimmed blocks *)

Lemma trimStart_clean s : noLeadingSpace (JS.trimStart s).
Proof.
  induction s as [|c s IH]; simpl; [done|].
  destruct (JS.isWhiteSpace c) eqn:Hc; [done|]. by simpl.
Qed.

Lemma trimStart_id s : noLeadingSpace s -> JS.trimStart s = s.
Proof. destruct s as [|c s]; simpl; [done|]. by intros ->. Qed.

Lemma trimStart_suffix s : exists before, s = before ++ JS.trimStart s.
Proof.
  induction s as [|c s [before IH]]; simpl; [by exists []|].
  destruct (JS.isWhiteSpace c); [|by exists []].
  exists (c :: before). simpl. by rewrite <- IH.
Qed.

Lemma noLeadingSpace_app a b : a <> [] -> noLeadingSpace (a ++ b) -> noLeadingSpace a.
Proof. by destruct a. Qed.

Lemma trim_clean s : noLeadingSpace (JS.trim s) /\ noLeadingSpace (rev (JS.trim s)).
Proof.
  unfold JS.trim, JS.trimEnd. rewrite rev_involutive.
  split; [|apply trimStart_clean].
  destruct (trimStart_suffix (rev (JS.trimStart s))) as [before Hb].
  destruct (JS.trimStart (rev (JS.trimStart s))) as [|c u] eqn:Hu; [done|].
  apply (noLeadingSpace_app _ (rev before)).
  - simpl. by destruct (rev u).
  - rewrite <- rev_app_distr, <- Hb, rev_involutive. apply trimStart_clean.
Qed.

Lemma trim_idempotent s : JS.trim (JS.trim s) = JS.trim s.
Proof.
  destruct (trim_clean s) as [H1 H2].
  unfold JS.trim at 1. unfold JS.trimEnd.
  by rewrite (trimStart_id _ H1), (trimStart_id _ H2), rev_involutive.
Qed.

(** X7. The block that comes out of the empty check is trimmed and not
    empty, and it is a fixed point of the check and of the basic validation:
    checking it again gives it back unchanged. *)
Theorem checked_block_is_stable (block trimmedBlock : CodeBlock.t) :
  checkNotEmpty block = ok trimmedBlock ->
  trimmed (CodeBlock.code trimmedBlock) /\
  CodeBlock.code trimmedBlock <> [] /\
  CodeBlock.startLine trimmedBlock = CodeBlock.startLine block /\
  checkNotEmpty trimmedBlock = ok trimmedBlock /\
  (validateBasicBlock block = ok trimmedBlock ->
   validateBasicBlock trimmedBlock = ok trimmedBlock).
Proof.
  intros Hok. apply checkNotEmpty_ok in Hok as [-> Hne]. cbn [CodeBlock.code CodeBlock.startLine].
  assert (Hagain : checkNotEmpty
            {| CodeBlock.code := JS.trim (CodeBlock.code block);
               CodeBlock.startLine := CodeBlock.startLine block |}
          = ok {| CodeBlock.code := JS.trim (CodeBlock.code block);
                  CodeBlock.startLine := CodeBlock.startLine block |}).
  { unfold checkNotEmpty. cbn [CodeBlock.code CodeBlock.startLine]. rewrite trim_idempotent.
    by destruct (JS.trim (CodeBlock.code block)). }
  split_and!; try done.
  - apply trim_idempotent.
  - unfold validateBasicBlock. rewrite Hagain.
    destruct (checkNotEmpty block) as [tb|e] eqn:Hc; [|done].
    apply checkNotEmpty_ok in Hc as [-> _]. cbn [CodeBlock.code CodeBlock.startLine].
    by destruct (findType _).
Qed.

Lemma checked_block_is_stable_witness :
  checkNotEmpty {| CodeBlock.code := JS.trim (CodeBlock.code unclosedBlock); CodeBlock.startLine := 2 |}
  = ok {| CodeBlock.code := JS.trim (CodeBlock.code unclosedBlock); CodeBlock.startLine := 2 |}.
Proof.
  destruct (checked_block_is_stable unclosedBlock
              {| CodeBlock.code := JS.trim (CodeBlock.code unclosedBlock); CodeBlock.startLine := 2 |}
              eq_refl) as (_ & _ & _ & H & _).
  exact H.
Defined.

(** ** Fragments of an HTML token *)

Lemma countNewlines_take s n : JS.countNewlines (take n s) <= JS.countNewlines s.
Proof.
  rewrite <- (take_drop n s) at 2. rewrite countNewlines_app.
  pose proof (countNewlines_nonneg (drop n s)). lia.
Qed.

Lemma blockOfMatch_span html startLine m :
  startLine <= CodeBlock.startLine (blockOfMatch html startLine m)
            <= startLine + JS.countNewlines html /\
  trimmed (CodeBlock.code (blockOfMatch html startLine m)).
Proof.
  unfold blockOfMatch. cbn [CodeBlock.code CodeBlock.startLine].
  rewrite substring_take by lia.
  pose proof (countNewlines_take html (Z.to_nat (Z.of_nat (index m)))).
  pose proof (countNewlines_nonneg (take (Z.to_nat (Z.of_nat (index m))) html)).
  split; [lia|apply trim_idempotent].
Qed.

(** X8. Every fragment is extracted inside its token: its [startLine] is
    not before the line of some token of the document and not after the last
    line of that token's content; the code of a fragment taken from an HTML
    token is trimmed. *)
Theorem fragment_within_token (tokens : list Token.t) (block : CodeBlock.t) :
  block ∈ extractMermaidBlocks tokens ->
  exists token,
    token ∈ tokens /\
    Token.lineNumber token <= CodeBlock.startLine block
      <= Token.lineNumber token + JS.countNewlines (Token.content token) /\
    (JS.eqb (Token.type token) "fence" = false -> trimmed (CodeBlock.code block)).
Proof.
  unfold extractMermaidBlocks. rewrite extractMermaidBlocks_from, app_nil_l.
  intros Hin. apply list_elem_of_In, in_concat in Hin as (bs & Hbs & Hin).
  apply in_map_iff in Hbs as (token & <- & Htoken).
  exists token. split; [by apply list_elem_of_In|].
  unfold blocksOfToken in Hin.
  destruct (JS.eqb (Token.type token) "fence").
  - destruct (JS.eqb _ "mermaid"); [|done].
    destruct Hin as [<-|[]]. cbn [CodeBlock.startLine].
    pose proof (countNewlines_nonneg (Token.content token)). split; [lia|done].
  - destruct (JS.eqb (Token.type token) "html_block"); [|done].
    rewrite extractMermaidFromHtml_spec in Hin. unfold blocksOfPattern in Hin.
    rewrite !in_app_iff, !in_map_iff in Hin.
    destruct Hin as [(m & <- & _)|[(m & <- & _)|(m & <- & _)]];
      destruct (blockOfMatch_span (Token.content token) (Token.lineNumber token) m); done.
Qed.

Lemma fragment_within_token_witness :
  exists token,
    token ∈ [divThenPre] /\
    Token.lineNumber token <= 5 <= Token.lineNumber token + JS.countNewlines (Token.content token) /\
    (JS.eqb (Token.type token) "fence" = false -> trimmed ("sequenceDiagram
  Alice->>Bob: Hello" : str)).
Proof.
  apply (fragment_within_token [divThenPre]
           {| CodeBlock.code := "sequenceDiagram
  Alice->>Bob: Hello"; CodeBlock.startLine := 5 |}).
  assert (H : extractMermaidBlocks [divThenPre] =
    [ {| CodeBlock.code := "sequenceDiagram
  Alice->>Bob: Hello"; CodeBlock.startLine := 5 |};
      {| CodeBlock.code := "flowchart LR
  A --> B"; CodeBlock.startLine := 1 |} ]) by (vm_compute; reflexivity).
  rewrite H. left.
Defined.

(** ** Entities *)

Lemma matchAt_literal_miss c0 pat prev rest :
  match rest with ch :: _ => ch <> c0 | [] => True end ->
  matchAt false (Lit (c0 :: pat)) prev rest = None.
Proof.
  unfold matchAt. simpl. destruct rest as [|ch rest]; [done|]. intros Hne.
  destruct (Ascii.eqb_spec c0 ch) as [->|_]; [done|done].
Qed.

Lemma scan_literal_absent c0 pat rest : forall skip prev,
  c0 ∉ rest -> scan false (Lit (c0 :: pat)) skip prev rest = [].
Proof.
  induction rest as [|ch rest IH]; intros skip prev Hnot.
  - cbn [scan]. destruct skip; [|done]. by rewrite matchAt_literal_miss.
  - cbn [scan]. apply not_elem_of_cons in Hnot as [Hne Hnot]. destruct skip as [|n].
    + rewrite matchAt_literal_miss by (simpl; congruence). by apply IH.
    + by apply IH.
Qed.

Lemma replace_literal_absent c0 pat by_ s :
  c0 ∉ s -> replace (literal_g (c0 :: pat)) by_ s = s.
Proof.
  intros Hnot. unfold replace, matchAll, literal_g. cbn [global ignoreCase body].
  by rewrite scan_literal_absent.
Qed.

(** X9. A text without an ampersand goes through [decodeHtmlEntities]
    unchanged. *)
Theorem decode_without_ampersand (code : str) :
  "&"%char ∉ code -> decodeHtmlEntities code = code.
Proof.
  intros Hnot. unfold decodeHtmlEntities.
  change (list_ascii_of_string "&lt;") with ("&"%char :: list_ascii_of_string "lt;").
  change (list_ascii_of_string "&gt;") with ("&"%char :: list_ascii_of_string "gt;").
  change (list_ascii_of_string "&amp;") with ("&"%char :: list_ascii_of_string "amp;").
  change (list_ascii_of_string "&quot;") with ("&"%char :: list_ascii_of_string "quot;").
  change (list_ascii_of_string "&#39;") with ("&"%char :: list_ascii_of_string "#39;").
  change (list_ascii_of_string "&nbsp;") with ("&"%char :: list_ascii_of_string "nbsp;").
  by do 6 rewrite (replace_literal_absent _ _ _ code) by done.
Qed.

Lemma decode_without_ampersand_witness :
  decodeHtmlEntities "flowchart LR" = ("flowchart LR" : str).
Proof.
  apply (decode_without_ampersand "flowchart LR").
  intros H. repeat (apply elem_of_cons in H as [H|H]; [discriminate H|]). by apply elem_of_nil in H.
Defined.

(** ** An offset past the end of the code *)

Lemma walkLines_past offset s : forall pos line,
  pos + Z.of_nat (length s) < offset ->
  walkLines (JS.split JS.newline s) offset pos line = line + JS.countNewlines s + 1.
Proof.
  induction s as [|c s IH]; intros pos line Hlt.
  - simpl in *. destruct (Z.geb_spec (pos + Z.of_nat 0) offset); [lia|].
    unfold JS.countNewlines. simpl. lia.
  - rewrite walkLines_char, countNewlines_cons. simpl length in Hlt.
    destruct (Ascii.eqb c JS.newline).
    + destruct (Z.geb_spec pos offset); [lia|]. rewrite IH by lia. lia.
    + rewrite IH by lia. lia.
Qed.

Lemma split_length s :
  Z.of_nat (length (JS.split JS.newline s)) = JS.countNewlines s + 1.
Proof.
  induction s as [|c s IH]; [done|].
  rewrite countNewlines_cons. simpl JS.split.
  destruct (Ascii.eqb c JS.newline).
  - simpl length. lia.
  - destruct (split_head JS.newline s) as (l & ls & Hs). rewrite Hs in *. simpl length in *. lia.
Qed.

Lemma walkLines_ge lines offset : forall pos line,
  line <= walkLines lines offset pos line <= line + Z.of_nat (length lines).
Proof.
  induction lines as [|l lines IH]; intros pos line; simpl; [lia|].
  destruct (pos + Z.of_nat (length l) >=? offset); [lia|].
  specialize (IH (pos + Z.of_nat (length l) + 1) (line + 1)). lia.
Qed.

(** X10. The line of [handleUnexpectedChar] lies between 1 and one more than
    the number of lines of the code; for an offset greater than the length
    of the code it is that last value, one line past the end of the code and
    one more than what [calculateKatexErrorLine] gives for the same offset. *)
Theorem offset_past_the_end (match_ : Match) (code : str) :
  let offset := JS.parseInt (capture match_ 2) in
  let lines := Z.of_nat (length (JS.split JS.newline code)) in
  (exists line, ParsedError.line (handleUnexpectedChar match_ code) = Some line /\
                1 <= line <= lines + 1) /\
  (Z.of_nat (length code) < offset ->
   ParsedError.line (handleUnexpectedChar match_ code) = Some (lines + 1) /\
   calculateKatexErrorLine code offset 1 = lines).
Proof.
  intros offset lines. split.
  - eexists. split; [reflexivity|]. fold offset.
    pose proof (walkLines_ge (JS.split JS.newline code) offset 0 1). unfold lines. lia.
  - intros Hpast. unfold handleUnexpectedChar. cbn [ParsedError.line]. fold offset.
    rewrite walkLines_past by lia. unfold lines. rewrite split_length.
    split; [f_equal; lia|].
    unfold calculateKatexErrorLine. rewrite substring_take by lia.
    rewrite take_ge by lia. lia.
Qed.

Lemma offset_past_the_end_witness :
  ParsedError.line (handleUnexpectedChar (atOffset "$" "99") "pie
 a") = Some 3.
Proof.
  destruct (offset_past_the_end (atOffset "$" "99") "pie
 a") as [_ H].
  apply H. vm_compute. reflexivity.
Defined.

(** ** The math rule *)

Lemma splice_skip ms pos s by_ x :
  Forall (fun m => (pos < index m)%nat) ms ->
  s !! pos = Some x ->
  splice ms pos s by_ = x :: splice ms (S pos) s by_.
Proof.
  intros Hms Hx. destruct ms as [|m ms]; simpl.
  - by apply drop_S.
  - apply Forall_inv in Hms. rewrite (drop_S s x pos Hx).
    replace (index m - pos)%nat with (S (index m - S pos)) by lia. done.
Qed.

Lemma matchAt_char c prev ch rest :
  matchAt false (Lit [c]) prev (ch :: rest) =
  if Ascii.eqb c ch
  then Some {| index := length prev; matched := [ch]; captures := [] |}
  else None.
Proof.
  unfold matchAt. simpl. destruct (Ascii.eqb c ch); [|done].
  unfold consumed. simpl. by rewrite Nat.sub_succ_l, Nat.sub_diag by lia.
Qed.

(** Replacing every occurrence of one character. *)
Lemma splice_scan_char c by_ rest : forall prev,
  splice (scan false (Lit [c]) 0 prev rest) (length prev) (rev prev ++ rest) by_
  = flat_map (fun x => if Ascii.eqb c x then by_ else [x]) rest.
Proof.
  induction rest as [|x rest IH]; intros prev.
  - cbn [scan]. unfold matchAt. simpl. rewrite app_nil_r.
    by rewrite <- length_rev, drop_all.
  - cbn [scan flat_map]. rewrite matchAt_char.
    assert (Hs : rev prev ++ x :: rest = rev (x :: prev) ++ rest)
      by (simpl; by rewrite <- app_assoc).
    destruct (Ascii.eqb c x).
    + cbn [splice index matched length]. rewrite Nat.sub_diag. simpl take.
      rewrite Hs. replace (length prev + 1)%nat with (length (x :: prev)) by (simpl; lia).
      simpl Nat.sub. by rewrite IH.
    + rewrite (splice_skip _ _ _ _ x).
      * rewrite Hs. change (S (length prev)) with (length (x :: prev)). by rewrite IH.
      * destruct (scan_ascending false (Lit [c]) rest 0 (x :: prev)) as [Hge _].
        eapply Forall_impl; [exact Hge|]. simpl. lia.
      * rewrite lookup_app_r by (rewrite length_rev; lia).
        by rewrite length_rev, Nat.sub_diag.
Qed.

Lemma replace_line_feeds s :
  replace LINE_FEED " " s = map (fun x => if Ascii.eqb JS.newline x then " "%char else x) s.
Proof.
  etrans; [exact (splice_scan_char JS.newline " " s [])|].
  induction s as [|x s IH]; [done|]. cbn [flat_map map]. rewrite IH.
  by destruct (Ascii.eqb JS.newline x).
Qed.

Lemma substring_length s a b :
  Z.of_nat (length (JS.substring s a b))
  <= Z.abs (JS.clamp (Z.of_nat (length s)) b - JS.clamp (Z.of_nat (length s)) a).
Proof. unfold JS.substring. rewrite length_take. lia. Qed.

Lemma substring_from_start s p :
  JS.substring s 0 p = take (Z.to_nat (JS.clamp (Z.of_nat (length s)) p)) s.
Proof.
  unfold JS.substring. cbv zeta.
  assert (H0 : JS.clamp (Z.of_nat (length s)) 0 = 0) by (unfold JS.clamp; lia).
  assert (Hp : 0 <= JS.clamp (Z.of_nat (length s)) p) by (unfold JS.clamp; lia).
  rewrite H0, Z.min_l, Z.max_r by lia. by rewrite Z.sub_0_r.
Qed.

(** X11. Every error of the KaTeX parser is reported on a line of its block:
    at the line found by counting the line feeds before the position when
    the error carries one, and at [startLine] otherwise. *)
Theorem katex_error_line (error : KatexThrown) (block : CodeBlock.t) :
  let e := parseKatexError error block in
  CodeBlock.startLine block <= ValidationError.lineNumber e
    <= CodeBlock.startLine block + JS.countNewlines (CodeBlock.code block) /\
  (forall message p,
     error = KatexParseError message (Some p) ->
     ValidationError.lineNumber e
     = CodeBlock.startLine block + JS.countNewlines (JS.substring (CodeBlock.code block) 0 p)) /\
  ((forall message p, error <> KatexParseError message (Some p)) ->
   ValidationError.lineNumber e = CodeBlock.startLine block).
Proof.
  intros e. pose proof (countNewlines_nonneg (CodeBlock.code block)) as Hnn.
  split; [|split].
  - unfold e. destruct error as [message [p|]| |]; simpl; try lia.
    unfold calculateKatexErrorLine. rewrite substring_from_start.
    pose proof (countNewlines_take (CodeBlock.code block)
                  (Z.to_nat (JS.clamp (Z.of_nat (length (CodeBlock.code block))) p))).
    pose proof (countNewlines_nonneg
                  (take (Z.to_nat (JS.clamp (Z.of_nat (length (CodeBlock.code block))) p))
                        (CodeBlock.code block))).
    lia.
  - intros message p ->. done.
  - intros Hne. unfold e. destruct error as [message [p|]| |]; simpl; try done.
    by destruct (Hne message p).
Qed.

Lemma katex_error_line_witness :
  ValidationError.lineNumber
    (parseKatexError (KatexParseError "KaTeX parse error: Undefined control sequence: \foo" (Some 8))
       {| CodeBlock.code := "a + b
= \foo"; CodeBlock.startLine := 10 |})
  = 10 + JS.countNewlines (JS.substring "a + b
= \foo" 0 8).
Proof.
  destruct (katex_error_line
              (KatexParseError "KaTeX parse error: Undefined control sequence: \foo" (Some 8))
              {| CodeBlock.code := "a + b
= \foo"; CodeBlock.startLine := 10 |}) as (_ & H & _).
  apply (H "KaTeX parse error: Undefined control sequence: \foo" 8). reflexivity.
Defined.

(** X12. The context of an error of the KaTeX parser that carries a
    position is at most 30 characters long and holds no line feed; the
    context of any other thrown value is at most 40 characters long. *)
Theorem katex_context_bounds (error : KatexThrown) (block : CodeBlock.t) (c : str) :
  ValidationError.context (parseKatexError error block) = Some c ->
  (length c <= 40)%nat /\
  (forall message p, error = KatexParseError message p ->
                     (length c <= 30)%nat /\ JS.newline ∉ c).
Proof.
  assert (H40 : (length (JS.substring (CodeBlock.code block) 0 40) <= 40)%nat).
  { pose proof (substring_length (CodeBlock.code block) 0 40). unfold JS.clamp in *. lia. }
  destruct error as [message [p|]| |]; simpl; intros [= <-]; try (split; [done|]; intros ? ? [=]).
  assert (H30 : (length (extractKatexContext (CodeBlock.code block) p) <= 30)%nat).
  { unfold extractKatexContext. rewrite replace_line_feeds, length_map.
    pose proof (substring_length (CodeBlock.code block) (Z.max 0 (p - 15))
                  (Z.min (Z.of_nat (length (CodeBlock.code block))) (p + 15))).
    unfold JS.clamp in *. lia. }
  split; [lia|]. intros ? ? _. split; [done|].
  unfold extractKatexContext. rewrite replace_line_feeds.
  intros Hin. apply list_elem_of_In, in_map_iff in Hin as (y & Hy & _).
  destruct (Ascii.eqb_spec JS.newline y) as [Heq|Hne]; [discriminate Hy|]. congruence.
Qed.

Lemma katex_context_bounds_witness :
  (length ("a + b = \foo" : str) <= 40)%nat.
Proof.
  apply (katex_context_bounds
           (KatexParseError "KaTeX parse error: Undefined control sequence: \foo" (Some 8))
           {| CodeBlock.code := "a + b
= \foo"; CodeBlock.startLine := 10 |}
           "a + b = \foo").
  vm_compute. reflexivity.
Defined.



(** ** The prefix of the messages of the KaTeX parser *)

Lemma cmatch_same ic c : cmatch ic (CChar c) c = true.
Proof. simpl. apply Ascii.eqb_refl. Qed.

(** A literal matches itself. *)
Lemma rmatch_literal {R} ic p : forall (k : str -> str -> list str -> option R) prev rest caps,
  rmatch ic (Lit p) k prev (p ++ rest) caps = k (rev p ++ prev) rest caps.
Proof.
  induction p as [|c p IH]; intros k prev rest caps; [done|].
  cbn [Lit rmatch app]. rewrite cmatch_same, IH. cbn [rev]. by rewrite <- app_assoc.
Qed.

(** A greedy [\s*] before a continuation that accepts takes all the white
    space there is. *)
Lemma star_space_greedy {R} ic (k : str -> str -> option R) rest : forall prev,
  (forall p q, is_Some (k p q)) ->
  exists w, rest = w ++ JS.trimStart rest /\
            quant ic true CSpace 0 None k prev rest = k (rev w ++ prev) (JS.trimStart rest).
Proof.
  induction rest as [|ch rest IH]; intros prev Hk.
  - exists []. split; [done|]. simpl. by destruct (k prev []).
  - cbn [quant JS.trimStart cmatch]. destruct (JS.isWhiteSpace ch).
    + destruct (IH (ch :: prev) Hk) as (w & Hw & Hq). exists (ch :: w). split.
      * simpl. by rewrite <- Hw.
      * cbn [pred fmap option_fmap option_map]. rewrite Hq.
        destruct (Hk (rev w ++ ch :: prev) (JS.trimStart rest)) as [x Hx].
        cbn [rev]. rewrite <- app_assoc. simpl. by rewrite Hx.
    + exists []. split; [done|]. simpl. by destruct (k prev (ch :: rest)).
Qed.

Lemma search_here ic r prev rest m :
  matchAt ic r prev rest = Some m -> search ic r prev rest = Some m.
Proof. intros H. destruct rest; simpl; by rewrite H. Qed.

Lemma exec_katex_prefix rest :
  exists w, rest = w ++ JS.trimStart rest /\
    exec KATEX_PREFIX ("KaTeX parse error:" ++ rest)
    = Some {| index := 0; matched := "KaTeX parse error:" ++ w; captures := [] |}.
Proof.
  unfold exec.
  change (body KATEX_PREFIX)
    with (Seq Bol (Seq (Lit "KaTeX parse error:") (Seq (Quant true 0 None CSpace) Empty))).
  change (ignoreCase KATEX_PREFIX) with true.
  assert (Hm : exists w, rest = w ++ JS.trimStart rest /\
    matchAt true (Seq Bol (Seq (Lit "KaTeX parse error:") (Seq (Quant true 0 None CSpace) Empty)))
            [] ("KaTeX parse error:" ++ rest)
    = Some {| index := 0; matched := "KaTeX parse error:" ++ w; captures := [] |}).
  { unfold matchAt. cbn [rmatch]. rewrite rmatch_literal. cbn [rmatch].
    match goal with
    | |- context [quant true true CSpace 0 None ?k ?p rest] =>
        destruct (star_space_greedy true k rest p) as (w & Hw & Hq); [by eexists|]
    end.
    exists w. split; [done|]. rewrite Hq. do 2 f_equal.
    unfold consumed. rewrite app_nil_r, Nat.sub_0_r, take_ge by lia.
    by rewrite rev_app_distr, !rev_involutive. }
  destruct Hm as (w & Hw & Hm). exists w. split; [done|]. by apply search_here.
Qed.

Lemma strip_katex_prefix rest :
  replace KATEX_PREFIX "" ("KaTeX parse error:" ++ rest) = JS.trimStart rest.
Proof.
  destruct (exec_katex_prefix rest) as (w & Hw & He).
  unfold replace. change (global KATEX_PREFIX) with false. cbv iota. rewrite He.
  cbn [splice index matched]. simpl take. cbn [app].
  rewrite Hw at 1. rewrite app_assoc, Nat.add_0_l, drop_app_length. done.
Qed.

(** X14. The detail of an error of the KaTeX parser whose message starts
    with the prefix of the parser is the rest of the message, without the
    white space after the prefix, followed by the hint chosen for it. *)
Theorem katex_prefix_stripped (message rest : str) (position : option Z) (block : CodeBlock.t) :
  message = "KaTeX parse error:" ++ rest ->
  ValidationError.detail (parseKatexError (KatexParseError message position) block)
  = Some (JS.trimStart rest ++ getKatexErrorHint (JS.trimStart rest)).
Proof. intros ->. cbn [parseKatexError ValidationError.detail]. by rewrite strip_katex_prefix. Qed.

Lemma katex_prefix_stripped_witness :
  ValidationError.detail
    (parseKatexError
       (KatexParseError "KaTeX parse error: Undefined control sequence: \foo" (Some 8))
       {| CodeBlock.code := "a + b
= \foo"; CodeBlock.startLine := 10 |})
  = Some ("Undefined control sequence: \foo. Check for typos in command names or use \text{} for regular text" : str).
Proof.
  etrans.
  - apply (katex_prefix_stripped "KaTeX parse error: Undefined control sequence: \foo"
             " Undefined control sequence: \foo"). reflexivity.
  - vm_compute. reflexivity.
Defined.

(** ** The matcher returns occurrences of the pattern *)

Lemma quant_sound {R} ic g c (k : str -> str -> option R) rest : forall mn mx prev x,
  quant ic g c mn mx k prev rest = Some x ->
  exists w q, rest = w ++ q /\ Forall (fun ch => cmatch ic c ch = true) w /\
              (mn <= length w)%nat /\ k (rev w ++ prev) q = Some x.
Proof.
  induction rest as [|ch rest IH]; intros mn mx prev x H; simpl in H.
  - assert (Hstop : mn = 0%nat /\ k prev [] = Some x).
    { destruct g; apply first_some_inv in H as [H|H];
        destruct mn, mx as [[|?]|]; simpl in H; done. }
    destruct Hstop as [-> Hk]. exists [], []. repeat split; done.
  - assert (Hcases : (mn = 0%nat /\ k prev (ch :: rest) = Some x) \/
                     (cmatch ic c ch = true /\
                      quant ic g c (pred mn) (pred <$> mx) k (ch :: prev) rest = Some x)).
    { destruct g; apply first_some_inv in H as [H|H];
        destruct mn, mx as [[|?]|], (cmatch ic c ch); simpl in H; try done; eauto. }
    destruct Hcases as [[-> Hk]|[Hc Hq]].
    + exists [], (ch :: rest). repeat split; done.
    + apply IH in Hq as (w & q & -> & Hw & Hmn & Hk).
      exists (ch :: w), q. split_and!; [done|by constructor|simpl; lia|].
      cbn [rev]. by rewrite <- app_assoc.
Qed.

Lemma consumed_rev prev w : consumed prev (rev w ++ prev) = w.
Proof.
  unfold consumed. rewrite length_app, length_rev.
  replace (length w + length prev - length prev)%nat with (length (rev w))
    by (rewrite length_rev; lia).
  by rewrite take_app_length, rev_involutive.
Qed.

Lemma rmatch_sound {R} ic r : forall (k : str -> str -> list str -> option R) prev rest caps x,
  rmatch ic r k prev rest caps = Some x ->
  exists w q cs, rest = w ++ q /\ shape ic r w /\ groups ic r cs /\
                 k (rev w ++ prev) q (caps ++ cs) = Some x.
Proof.
  induction r as [|c|r1 IH1 r2 IH2|g mn mx c|r IH|r IH| |];
    intros k prev rest caps x H; simpl in H.
  - exists [], rest, []. rewrite app_nil_r. repeat split; done.
  - destruct rest as [|ch rest]; [done|]. destruct (cmatch ic c ch) eqn:Hc; [|done].
    exists [ch], rest, []. rewrite app_nil_r. split_and!; [done|by exists ch|done|done].
  - apply IH1 in H as (w1 & q1 & cs1 & -> & Hs1 & Hg1 & H).
    apply IH2 in H as (w2 & q2 & cs2 & -> & Hs2 & Hg2 & H).
    exists (w1 ++ w2), q2, (cs1 ++ cs2). split_and!.
    + by rewrite app_assoc.
    + by exists w1, w2.
    + by exists cs1, cs2.
    + by rewrite rev_app_distr, <- !app_assoc, (app_assoc caps).
  - apply quant_sound in H as (w & q & -> & Hw & Hmn & H).
    exists w, q, []. rewrite app_nil_r. repeat split; done.
  - apply first_some_inv in H as [H|H].
    + apply IH in H as (w & q & cs & -> & Hs & Hg & H). exists w, q, cs.
      split_and!; [done|by right|by right|done].
    + exists [], rest, []. rewrite app_nil_r. split_and!; [done|by left|by left|done].
  - apply IH in H as (w & q & cs & -> & Hs & Hg & H).
    rewrite consumed_rev, <- app_assoc in H.
    exists w, q, (cs ++ [w]). split_and!; [done|done|by exists cs, w|done].
  - destruct prev; [|done]. exists [], rest, []. rewrite !app_nil_r. repeat split; done.
  - destruct (xorb _ _); [|done]. exists [], rest, []. rewrite app_nil_r. repeat split; done.
Qed.

Lemma matchAt_sound ic r prev rest m :
  matchAt ic r prev rest = Some m ->
  exists q, rest = matched m ++ q /\ index m = length prev /\
            shape ic r (matched m) /\ groups ic r (captures m).
Proof.
  unfold matchAt. intros H.
  apply rmatch_sound in H as (w & q & cs & -> & Hs & Hg & [= <-]).
  exists q. cbn [matched index captures]. rewrite consumed_rev. repeat split; done.
Qed.

Lemma search_sound ic r rest : forall prev m,
  search ic r prev rest = Some m ->
  exists skipped q, rest = skipped ++ matched m ++ q /\
                    index m = (length prev + length skipped)%nat /\
                    shape ic r (matched m) /\ groups ic r (captures m).
Proof.
  induction rest as [|c rest IH]; intros prev m H; simpl in H.
  - destruct (matchAt ic r prev []) eqn:E; [|done]. injection H as ->.
    apply matchAt_sound in E as (q & Hq & Hi & Hs & Hg).
    exists [], q. rewrite Nat.add_0_r. repeat split; done.
  - destruct (matchAt ic r prev (c :: rest)) eqn:E.
    + injection H as ->. apply matchAt_sound in E as (q & Hq & Hi & Hs & Hg).
      exists [], q. rewrite Nat.add_0_r. repeat split; done.
    + apply IH in H as (skipped & q & -> & Hi & Hs & Hg).
      exists (c :: skipped), q. simpl in *. repeat split; try done. lia.
Qed.

(** A match returned by [exec] is an occurrence of the pattern in the text,
    at the index it reports. *)
Lemma exec_sound re s m :
  exec re s = Some m ->
  exists before after,
    s = before ++ matched m ++ after /\ index m = length before /\
    shape (ignoreCase re) (body re) (matched m) /\
    groups (ignoreCase re) (body re) (captures m).
Proof. intros H. apply search_sound in H as (b & q & ? & ? & ? & ?). by exists b, q. Qed.

Lemma groups_literal ic p cs : groups ic (Lit p) cs -> cs = [].
Proof.
  revert cs. induction p as [|c p IH]; intros cs; [done|].
  cbn [Lit groups]. intros (c1 & c2 & -> & -> & H). by apply IH in H.
Qed.

Lemma digit_value c : JS.isDigit c = true -> 0 <= JS.digitValue c <= 9.
Proof.
  destruct c as [[] [] [] [] [] [] [] []]; intros H; try discriminate H; vm_compute; split; discriminate.
Qed.

Lemma parseInt_nonneg w : Forall (fun c => JS.isDigit c = true) w -> 0 <= JS.parseInt w.
Proof.
  unfold JS.parseInt. assert (Hgen : forall acc, 0 <= acc ->
    Forall (fun c => JS.isDigit c = true) w ->
    0 <= fold_left (fun acc c => 10 * acc + JS.digitValue c) w acc).
  { induction w as [|c w IH]; intros acc Hacc Hw; simpl; [done|].
    apply Forall_cons in Hw as [Hc Hw]. apply IH; [|done].
    pose proof (digit_value c Hc). lia. }
  by apply Hgen.
Qed.

(** The line that the first two patterns capture is a number of decimal
    digits. *)
Lemma PARSE_ERROR_digits s m :
  exec PARSE_ERROR s = Some m -> Forall (fun c => JS.isDigit c = true) (capture m 1).
Proof.
  intros H. apply exec_sound in H as (_ & _ & _ & _ & _ & Hg).
  change (body PARSE_ERROR) with
    (Seq (Lit "Parse error on line ") (Seq (Group (Quant true 1 None CDigit)) (Seq (Lit ":") Empty)))
    in Hg.
  cbn [groups] in Hg. unfold capture.
  destruct Hg as (c1 & c2 & -> & H1 & c3 & c4 & -> & (inner & w & -> & -> & Hw & _) & c5 & c6 & -> & H5 & ->).
  apply groups_literal in H1 as ->. apply groups_literal in H5 as ->.
  by simpl.
Qed.

Lemma LEXICAL_ERROR_digits s m :
  exec LEXICAL_ERROR s = Some m -> Forall (fun c => JS.isDigit c = true) (capture m 1).
Proof.
  intros H. apply exec_sound in H as (_ & _ & _ & _ & _ & Hg).
  change (body LEXICAL_ERROR) with
    (Seq (Lit "Lexical error on line ") (Seq (Group (Quant true 1 None CDigit)) Empty)) in Hg.
  cbn [groups] in Hg. unfold capture.
  destruct Hg as (c1 & c2 & -> & H1 & c3 & c4 & -> & (inner & w & -> & -> & Hw & _) & ->).
  apply groups_literal in H1 as ->.
  by simpl.
Qed.

Lemma translated_line_nonneg errorMessage code l :
  ParsedError.line (parseErrorMessage errorMessage code) = Some l -> 0 <= l.
Proof.
  unfold parseErrorMessage.
  destruct (exec PARSE_ERROR errorMessage) as [m|] eqn:E1.
  { rewrite handleParseError_line. intros [= <-].
    by apply parseInt_nonneg, (PARSE_ERROR_digits errorMessage). }
  destruct (exec LEXICAL_ERROR errorMessage) as [m|] eqn:E2.
  { cbn [lexicalError ParsedError.line]. intros [= <-].
    by apply parseInt_nonneg, (LEXICAL_ERROR_digits errorMessage). }
  destruct (JS.includes errorMessage "No diagram type detected"); [by intros [= <-]|].
  destruct (exec UNEXPECTED_CHAR errorMessage) as [m|].
  { cbn [handleUnexpectedChar ParsedError.line]. intros [= <-].
    pose proof (walkLines_ge (JS.split JS.newline code) (JS.parseInt (capture m 2)) 0 1). lia. }
  destruct (exec EXPECTING_TOKEN errorMessage); [by intros [= <-]|].
  destruct (JS.includes errorMessage "Expecting: one of these possible"); [by intros [= <-]|done].
Qed.

(** X15. No error is reported on a line before its block: the error of the
    empty check and of the basic check are at [startLine], and the error of
    a parser failure is at [startLine] or after it, whatever the message of
    the parser. *)
Theorem reported_line_not_before_block (parse : str -> ParseOutcome)
    (block : CodeBlock.t) (e : ValidationError.t) :
  validate parse block = err e \/ validateBasicBlock block = err e ->
  CodeBlock.startLine block <= ValidationError.lineNumber e.
Proof.
  intros [H|H].
  - unfold validate in H. destruct (checkNotEmpty block) as [tb|e'] eqn:Hc.
    + apply checkNotEmpty_ok in Hc as [-> _]. unfold parseResult in H.
      cbn [CodeBlock.code] in H. destruct (parse _) as [|error]; [done|].
      injection H as <-. unfold parseFailure, toValidationError.
      cbn [ValidationError.lineNumber CodeBlock.startLine CodeBlock.code].
      destruct (ParsedError.line _) as [l|] eqn:Hl; [|lia].
      apply translated_line_nonneg in Hl. destruct (Z.eqb_spec l 0); lia.
    + injection H as <-. unfold checkNotEmpty in Hc.
      destruct (negb _); [|done]. injection Hc as <-. simpl. lia.
  - unfold validateBasicBlock in H. destruct (checkNotEmpty block) as [tb|e'] eqn:Hc.
    + destruct (negb _); [|done]. injection H as <-. simpl. lia.
    + injection H as <-. unfold checkNotEmpty in Hc.
      destruct (negb _); [|done]. injection Hc as <-. simpl. lia.
Qed.

Lemma reported_line_not_before_block_witness :
  exists e, validate (rejecting unclosedBracket) unclosedBlock = err e /\
            2 <= ValidationError.lineNumber e.
Proof.
  eexists. split; [reflexivity|].
  apply (reported_line_not_before_block (rejecting unclosedBracket) unclosedBlock).
  left. reflexivity.
Defined.

(** ** A parse error without an expected-token clause *)

(** A greedy quantifier takes the whole run of matching characters when the
    continuation accepts after it. *)
Lemma quant_greedy_max {R} ic c (k : str -> str -> option R) w rest x : forall mn prev,
  Forall (fun ch => cmatch ic c ch = true) w ->
  (mn <= length w)%nat ->
  match rest with ch :: _ => cmatch ic c ch = false | [] => True end ->
  k (rev w ++ prev) rest = Some x ->
  quant ic true c mn None k prev (w ++ rest) = Some x.
Proof.
  induction w as [|ch w IH]; intros mn prev Hw Hmn Hrest Hk.
  - simpl in Hmn. assert (mn = 0%nat) as -> by lia. simpl in Hk.
    destruct rest as [|ch rest]; simpl; [by rewrite Hk|]. by rewrite Hrest.
  - apply Forall_cons in Hw as [Hch Hw]. cbn [app quant]. rewrite Hch.
    cbn [fmap option_fmap option_map].
    rewrite (IH (pred mn) (ch :: prev)); [done|done|simpl in Hmn; lia|done|].
    cbn [rev] in Hk. by rewrite <- app_assoc in Hk.
Qed.

Lemma upTo_app sep a b : sep ∉ a -> upTo sep (a ++ b) = a ++ upTo sep b.
Proof.
  induction a as [|c a IH]; intros Hnot; [done|].
  apply not_elem_of_cons in Hnot as [Hne Hnot]. cbn [app upTo].
  destruct (Ascii.eqb_spec c sep) as [->|_]; [done|]. by rewrite IH.
Qed.

Lemma digits_no_newline ds :
  Forall (fun c => JS.isDigit c = true) ds -> JS.newline ∉ ds.
Proof.
  intros Hds Hin. rewrite Forall_forall in Hds. apply Hds in Hin. discriminate Hin.
Qed.

Lemma exec_PARSE_ERROR_header ds tail :
  ds <> [] -> Forall (fun c => JS.isDigit c = true) ds ->
  exec PARSE_ERROR ("Parse error on line " ++ ds ++ ":" ++ tail)
  = Some {| index := 0; matched := "Parse error on line " ++ ds ++ ":"; captures := [ds] |}.
Proof.
  intros Hne Hds. unfold exec. apply search_here.
  change (ignoreCase PARSE_ERROR) with true.
  change (body PARSE_ERROR) with
    (Seq (Lit "Parse error on line ") (Seq (Group (Quant true 1 None CDigit)) (Seq (Lit ":") Empty))).
  unfold matchAt. cbn [rmatch]. rewrite rmatch_literal. cbn [rmatch].
  erewrite (quant_greedy_max true CDigit _ ds (":" ++ tail)); [reflexivity|done| |done|].
  - destruct ds; [done|simpl; lia].
  - rewrite rmatch_literal. cbn [rmatch]. rewrite !consumed_rev, !app_nil_r.
    do 2 f_equal.
    replace (rev ":" ++ rev ds ++ rev "Parse error on line ")
      with (rev ("Parse error on line " ++ ds ++ ":") ++ [])
      by (rewrite !rev_app_distr, app_nil_r, <- !app_assoc; done).
    by rewrite consumed_rev.
Qed.

Lemma strip_PARSE_ERROR_HEADER ds t :
  ds <> [] -> Forall (fun c => JS.isDigit c = true) ds ->
  replace PARSE_ERROR_HEADER "" ("Parse error on line " ++ ds ++ ":" ++ t) = JS.trimStart t.
Proof.
  intros Hne Hds.
  assert (He : exists w, t = w ++ JS.trimStart t /\
    exec PARSE_ERROR_HEADER ("Parse error on line " ++ ds ++ ":" ++ t)
    = Some {| index := 0; matched := ("Parse error on line " ++ ds ++ ":") ++ w; captures := [] |}).
  { unfold exec. change (ignoreCase PARSE_ERROR_HEADER) with false.
    change (body PARSE_ERROR_HEADER) with
      (Seq Bol (Seq (Lit "Parse error on line ") (Seq (Quant true 1 None CDigit)
         (Seq (Lit ":") (Seq (Quant true 0 None CSpace) Empty))))).
    match goal with
    | |- context [search false ?r [] ?s] =>
        assert (Hm : exists w, t = w ++ JS.trimStart t /\
          matchAt false r [] s
          = Some {| index := 0; matched := ("Parse error on line " ++ ds ++ ":") ++ w;
                    captures := [] |})
    end.
    { unfold matchAt. cbn [rmatch]. rewrite rmatch_literal. cbn [rmatch].
      destruct (star_space_greedy false
                  (fun p q => Some {| index := length (@nil ascii);
                                      matched := consumed [] p; captures := [] |})
                  t (rev ":" ++ rev ds ++ rev "Parse error on line " ++ []))
        as (w & Hw & Hq); [by eexists|].
      exists w. split; [done|].
      erewrite (quant_greedy_max false CDigit _ ds (":" ++ t)); [reflexivity|done| |done|].
      - destruct ds; [done|simpl; lia].
      - rewrite rmatch_literal. cbn [rmatch]. rewrite Hq. do 2 f_equal.
        replace (rev w ++ rev ":" ++ rev ds ++ rev "Parse error on line " ++ [])
          with (rev (("Parse error on line " ++ ds ++ ":") ++ w) ++ [])
          by (rewrite !rev_app_distr, !app_nil_r, <- !app_assoc; done).
        by rewrite consumed_rev. }
    destruct Hm as (w & Hw & Hm). exists w. split; [done|]. by apply search_here. }
  destruct He as (w & Hw & He).
  unfold replace. change (global PARSE_ERROR_HEADER) with false. cbv iota. rewrite He.
  cbn [splice index matched]. simpl take. cbn [app]. rewrite Nat.add_0_l.
  rewrite Hw at 1.
  replace ("Parse error on line " ++ ds ++ ":" ++ w ++ JS.trimStart t)
    with ((("Parse error on line " ++ ds ++ ":") ++ w) ++ JS.trimStart t)
    by (rewrite <- !app_assoc; done).
  by rewrite drop_app_length.
Qed.

(** X16. A message that starts with the parse-error header and has no
    clause of the form [Expecting ..., got '...']: the line is the number in
    the header, the message is the rest of the header line without its
    leading white space, and there is no hint; when nothing but white space
    follows the header on its line, the message and the reported detail are
    the empty string. *)
Theorem parse_error_header_line (ds tail code : str) :
  let errorMessage := "Parse error on line " ++ ds ++ ":" ++ tail in
  let parsed := parseErrorMessage errorMessage code in
  ds <> [] ->
  Forall (fun c => JS.isDigit c = true) ds ->
  exec EXPECTING_GOT errorMessage = None ->
  ParsedError.line parsed = Some (JS.parseInt ds) /\
  ParsedError.message parsed = Some (JS.trimStart (upTo JS.newline tail)) /\
  ParsedError.hint parsed = None /\
  (JS.trimStart (upTo JS.newline tail) = [] -> formatErrorDetail parsed = Some []).
Proof.
  intros errorMessage parsed Hne Hds Hexp.
  assert (Hparsed : parsed =
    {| ParsedError.line := Some (JS.parseInt ds);
       ParsedError.message := Some (JS.trimStart (upTo JS.newline tail));
       ParsedError.hint := None;
       ParsedError.context := extractContext (JS.split JS.newline errorMessage) |}).
  { unfold parsed, parseErrorMessage. fold errorMessage.
    unfold errorMessage at 1. rewrite exec_PARSE_ERROR_header by done.
    unfold handleParseError. rewrite Hexp. unfold capture. cbn [captures lookup list_lookup default].
    f_equal. f_equal. unfold firstOf. rewrite split_first. cbn [default].
    unfold errorMessage.
    replace ("Parse error on line " ++ ds ++ ":" ++ tail)
      with (("Parse error on line " ++ ds ++ ":") ++ tail) by (rewrite <- !app_assoc; done).
    rewrite upTo_app.
    - rewrite <- !app_assoc. by apply strip_PARSE_ERROR_HEADER.
    - rewrite !not_elem_of_app. split_and!.
      + intros H. repeat (apply elem_of_cons in H as [H|H]; [discriminate H|]).
        by apply elem_of_nil in H.
      + by apply digits_no_newline.
      + intros H. apply elem_of_cons in H as [H|H]; [discriminate H|]. by apply elem_of_nil in H. }
  rewrite Hparsed. cbn [ParsedError.line ParsedError.message ParsedError.hint].
  split_and!; try done. intros Hempty. unfold formatErrorDetail.
  cbn [ParsedError.hint ParsedError.message]. by rewrite Hempty.
Qed.

Lemma parse_error_header_line_witness :
  ParsedError.message (parseErrorMessage "Parse error on line 12: Unexpected end of input
..." "x") = Some ("Unexpected end of input" : str).
Proof.
  destruct (parse_error_header_line "12" " Unexpected end of input
..." "x") as (_ & H & _).
  - discriminate.
  - by repeat constructor.
  - reflexivity.
  - exact H.
Defined.

(** ** Reports come after the join, all at once *)

Lemma iter_settled parse p block n r :
  Nat.iter n (advance parse) (initTask p block) = Settled r -> r = validate parse block.
Proof.
  unfold initTask, validate. destruct (checkNotEmpty block) as [tb|e].
  - destruct (Process.mermaidInstance p).
    + destruct n as [|n]; [done|]. rewrite Nat.iter_succ_r. simpl.
      rewrite advance_settled. by intros [= <-].
    + destruct n as [|[|n]]; [done|done|]. rewrite !Nat.iter_succ_r. simpl.
      rewrite advance_settled. by intros [= <-].
  - rewrite advance_settled. by intros [= <-].
Qed.

Lemma settled_results parse p schedule blocks results :
  mapM settled
    (tasks (foldl (step parse) (foldl start {| process := p; tasks := []; trace := [] |} blocks)
              schedule)) = Some results ->
  results = map (validate parse) blocks.
Proof.
  intros Hm. apply mapM_Some in Hm.
  destruct (starts_spec blocks {| process := p; tasks := []; trace := [] |}) as (Ht & _).
  simpl in Ht. apply list_eq. intros j.
  pose proof (steps_tasks parse schedule
                (foldl start {| process := p; tasks := []; trace := [] |} blocks) j) as Hj.
  rewrite Ht, list_lookup_fmap in Hj. rewrite list_lookup_fmap.
  destruct (blocks !! j) as [b|] eqn:Hb; simpl in *.
  - destruct (Forall2_lookup_l _ _ _ _ _ Hm Hj) as (r & Hr & Hs). rewrite Hr. f_equal.
    destruct (Nat.iter _ _ _) eqn:Hi; simpl in Hs; try done. injection Hs as ->.
    by apply iter_settled in Hi.
  - destruct (results !! j) as [r|] eqn:Hr; [|done].
    destruct (Forall2_lookup_r _ _ _ _ _ Hm Hr) as (t & Ht' & _). congruence.
Qed.

(** X17. The full mode never reports part of the errors. Under any schedule
    the trace is made of events that are not reports followed by the
    reports; and the reports are either none, or the errors of all the
    blocks in the order of the blocks. *)
Theorem reports_all_or_nothing (parse : str -> ParseOutcome) (p : Process.t)
    (schedule : list nat) (blocks : list CodeBlock.t) :
  let events := trace (runFull parse p schedule blocks) in
  (reports events = [] \/ reports events = errorsOf (map (validate parse) blocks)) /\
  exists before, events = before ++ map OnError (reports events) /\ reports before = [].
Proof.
  intros events. unfold events, runFull.
  set (m := foldl (step parse) (foldl start {| process := p; tasks := []; trace := [] |} blocks)
              schedule).
  assert (Hquiet : reports (trace m) = []).
  { unfold m. rewrite steps_reports.
    destruct (starts_spec blocks {| process := p; tasks := []; trace := [] |}) as (_ & _ & Hr & _).
    by rewrite Hr. }
  unfold join. destruct (mapM settled (tasks m)) as [results|] eqn:Hm.
  - apply settled_results in Hm as ->. rewrite combineWithAllErrors_spec.
    destruct (errorsOf (map (validate parse) blocks)) as [|e es] eqn:He.
    + rewrite Hquiet. split; [by left|]. exists (trace m). by rewrite app_nil_r.
    + cbn [trace]. unfold reports at 1 2 3. rewrite omap_app.
      fold (reports (trace m)) (reports (map OnError (e :: es))).
      rewrite Hquiet, reports_onError. split; [by right|]. by exists (trace m).
  - rewrite Hquiet. split; [by left|]. exists (trace m). by rewrite app_nil_r.
Qed.

(** ** The unknown-diagram diagnostic *)

Lemma trimStart_snoc l c :
  JS.isWhiteSpace c = false -> exists u, JS.trimStart (l ++ [c]) = u ++ [c].
Proof.
  intros Hc. induction l as [|x l [u IH]]; simpl.
  - rewrite Hc. by exists [].
  - destruct (JS.isWhiteSpace x); [by exists u|]. by exists (x :: l).
Qed.

Lemma trim_cons c s :
  JS.isWhiteSpace c = false -> exists u, JS.trim (c :: s) = c :: u.
Proof.
  intros Hc. unfold JS.trim, JS.trimEnd. cbn [JS.trimStart]. rewrite Hc.
  cbn [rev]. destruct (trimStart_snoc (rev s) c Hc) as [u Hu].
  rewrite Hu, rev_app_distr. simpl. by eexists.
Qed.

(** X18. For a block that passed the empty check, the diagnostic of an
    unknown diagram type names the first line of the code, which is not
    empty: the message quotes that line without its trailing white space and
    the context is its first 40 characters. *)
Theorem unknown_type_names_first_line (block trimmedBlock : CodeBlock.t) :
  checkNotEmpty block = ok trimmedBlock ->
  let parsed := handleNoDiagramType (CodeBlock.code trimmedBlock) in
  exists first,
    first <> [] /\
    first = JS.trim (upTo JS.newline (CodeBlock.code trimmedBlock)) /\
    ParsedError.message parsed = Some (quoted "Unknown diagram type: " first "") /\
    ParsedError.context parsed = Some (take 40 first).
Proof.
  intros Hok parsed. apply checkNotEmpty_ok in Hok as [-> Hne].
  cbn [CodeBlock.code] in *. unfold parsed. clear parsed.
  destruct (trim_clean (CodeBlock.code block)) as [Hclean _].
  destruct (JS.trim (CodeBlock.code block)) as [|c s] eqn:Hcode; [done|]. simpl in Hclean.
  assert (Hnl : Ascii.eqb c JS.newline = false).
  { destruct (Ascii.eqb_spec c JS.newline) as [->|]; [discriminate Hclean|done]. }
  assert (Hup : upTo JS.newline (c :: s) = c :: upTo JS.newline s) by (simpl; by rewrite Hnl).
  destruct (trim_cons c (upTo JS.newline s) Hclean) as [u Hu].
  exists (c :: u). unfold handleNoDiagramType. rewrite split_first, Hup. cbn [fmap option_fmap option_map default].
  rewrite Hu. cbn [JS.truthy]. split_and!; try done.
  cbn [ParsedError.context]. rewrite substring_take by lia. done.
Qed.

Lemma unknown_type_names_first_line_witness :
  exists first,
    first <> [] /\
    first = JS.trim (upTo JS.newline (JS.trim (CodeBlock.code unclosedBlock))) /\
    ParsedError.message (handleNoDiagramType (JS.trim (CodeBlock.code unclosedBlock)))
      = Some (quoted "Unknown diagram type: " first "") /\
    ParsedError.context (handleNoDiagramType (JS.trim (CodeBlock.code unclosedBlock)))
      = Some (take 40 first).
Proof.
  apply (unknown_type_names_first_line unclosedBlock
           {| CodeBlock.code := JS.trim (CodeBlock.code unclosedBlock); CodeBlock.startLine := 2 |}
           eq_refl).
Defined.

